(** * OpenMDAO 1: data transfer and group-level derivative propagation

    A shallow embedding of [openmdao/core/data_transfer.py] and of the parts
    of [openmdao/core/group.py] that resolve connections, apply the linear
    operator, assemble the Jacobian and guard variable access.

    Conventions.
    - The arrays of a transfer have any element type that comes with its
      addition ([Dtype]); [float64] is the one of the code, and what is
      proved about a transfer holds for it, rounding included.  The
      group-level operators are developed over exact integers ([Z]): that
      part is about where values are moved and how they are combined.
    - A Python exception is the result [None] (or an [inl] carrying the
      error) of the embedded function.
    - Ordered dictionaries are association lists in iteration order; a plain
      dictionary that is only looked up is a [gmap]. *)

From stdpp Require Import base option list gmap strings sorting.
From Stdlib Require Import ZArith Ascii PrimFloat.

Local Open Scope string_scope.
Local Open Scope list_scope.
Local Open Scope Z_scope.
Local Open Scope nat_scope.

Local Set Warnings "-register-all".

(** ** numpy arrays, as far as the transfer uses them *)

Module numpy.

(** The element type of an array, with the addition that [+=] and
    [np.add.at] perform on its entries. *)
Class Dtype (A : Type) := np_add : A → A → A.

(** [float64], the element type of the vectors in the code. *)
#[global] Instance float64 : Dtype float := PrimFloat.add.

#[global] Instance float_inhabited : Inhabited float := populate 0%float.

(** Exact integers, the element type of the group-level development. *)
#[global] Instance int_dtype : Dtype Z := Z.add.

Abbreviation ndarray := (list Z).

(** What [to_slices] hands back for one side of a plan: a [slice] object
    or an array of indices. *)
Inductive index :=
| Slice (start stop : nat)
| IdxArray (idxs : list nat).

(** Positions of an array of length [n] that an index selects.  A slice
    is clipped to the array, an index array out of bounds raises. *)
Definition positions (n : nat) (ix : index) : option (list nat) :=
  match ix with
  | Slice a b => Some (seq a (b `min` n - a))
  | IdxArray l => if decide (Forall (λ k, k < n) l) then Some l else None
  end.

Section arrays.
Context {A : Type} {D : Dtype A}.

(** [a[ix]] *)
Definition getitem (a : list A) (ix : index) : option (list A) :=
  ps ← positions (length a) ix; mapM (λ k, a !! k) ps.

(** Broadcasting a one-dimensional right-hand side to [n] entries. *)
Definition broadcast_to (n : nat) (v : list A) : option (list A) :=
  if decide (length v = n) then Some v
  else match v with
       | [x] => Some (replicate n x)
       | _ => None
       end.

(** One assignment per pair (position, value), in the order of the pairs. *)
Definition scatter_set (a : list A) (kvs : list (nat * A)) : list A :=
  foldl (λ acc kv, <[kv.1 := kv.2]> acc) a kvs.

(** One addition per pair (position, value), in the order of the pairs: a
    position named by several pairs is added to once for each of them. *)
Definition scatter_add (a : list A) (kvs : list (nat * A)) : list A :=
  foldl (λ acc kv, alter (λ y, np_add y kv.2) kv.1 acc) a kvs.

(** [a[ix] = v] *)
Definition setitem (a : list A) (ix : index) (v : list A) : option (list A) :=
  ps ← positions (length a) ix;
  vs ← broadcast_to (length ps) v;
  Some (scatter_set a (zip ps vs)).

(** [a[start:stop] += v] *)
Definition iadd_slice (a : list A) (start stop : nat) (v : list A)
  : option (list A) :=
  ps ← positions (length a) (Slice start stop);
  vs ← broadcast_to (length ps) v;
  Some (scatter_add a (zip ps vs)).

(** [np.add.at(a, idxs, v)] *)
Definition add_at (a : list A) (idxs : list nat) (v : list A)
  : option (list A) :=
  ps ← positions (length a) (IdxArray idxs);
  vs ← broadcast_to (length ps) v;
  Some (scatter_add a (zip ps vs)).

End arrays.

End numpy.

(** ** openmdao.util.to_slices *)

Module util.
Import numpy.

Definition fst_le (p q : nat * nat) : Prop := p.1 ≤ q.1.

#[global] Instance fst_le_dec p q : Decision (fst_le p q).
Proof. unfold fst_le. apply _. Defined.

(** Modelled from the spec: [to_slice] is not among the sources.  An index
    array becomes a contiguous range when its entries form one, and stays
    an explicit index list otherwise. *)
Definition to_slice (idxs : list nat) : index :=
  match idxs with
  | [] => IdxArray []
  | a :: _ =>
      if decide (idxs = seq a (length idxs))
      then Slice a (a + length idxs)
      else IdxArray idxs
  end.

(** Modelled from the spec: [to_slices] is not among the sources.  The
    pairs are sorted by the first array and each side is then converted to
    its most compact form. *)
Definition to_slices (idxs1 idxs2 : list nat) : index * index :=
  let ps := merge_sort fst_le (zip idxs1 idxs2) in
  (to_slice (ps.*1), to_slice (ps.*2)).

End util.

(** ** data_transfer.py *)

Module data_transfer.
Import numpy util.

(** Modelled from the spec: [VecWrapper] is not among the sources.  The
    transfer reads and writes the flat array [vec], and for by-object
    connections gets and sets whole values by variable name.  A value
    passed by object is represented by its identity. *)
Record VecWrapper (A : Type) := mkVec {
  vec : list A;
  objs : gmap string nat
}.

Arguments mkVec {A} _ _.
Arguments vec {A} _.
Arguments objs {A} _.

Record DataTransfer := mkDataTransfer {
  src_idxs : list nat;
  tgt_idxs : list nat;
  vec_conns : list (string * string);
  byobj_conns : list (string * string);
  src_slice : index;
  tgt_slice : index
}.

(** [DataTransfer.__init__] *)
Definition DataTransfer_init (src_idxs tgt_idxs : list nat)
    (vec_conns byobj_conns : list (string * string)) (mode : string)
  : DataTransfer :=
  if decide (mode = "fwd") then
    let '(s, t) := to_slices src_idxs tgt_idxs in
    mkDataTransfer src_idxs tgt_idxs vec_conns byobj_conns s t
  else
    let '(t, s) := to_slices tgt_idxs src_idxs in
    mkDataTransfer src_idxs tgt_idxs vec_conns byobj_conns s t.

Section transfer.
Context {A : Type} {D : Dtype A}.

Definition set_vec (w : VecWrapper A) (v : list A) : VecWrapper A :=
  {| vec := v; objs := objs w |}.

(** [w[name]] for a variable passed by object; a missing name raises. *)
Definition vw_getitem (w : VecWrapper A) (name : string) : option nat :=
  objs w !! name.

(** [w[name] = o] for a variable passed by object; a missing name raises. *)
Definition vw_setitem (w : VecWrapper A) (name : string) (o : nat)
  : option (VecWrapper A) :=
  match objs w !! name with
  | Some _ => Some {| vec := vec w; objs := <[name := o]> (objs w) |}
  | None => None
  end.

(** The loop [for tgt, src in self.byobj_conns: tgtvec[tgt] = srcvec[src]] *)
Fixpoint transfer_byobjs (conns : list (string * string))
    (srcvec tgtvec : VecWrapper A) : option (VecWrapper A) :=
  match conns with
  | [] => Some tgtvec
  | (tgt, src) :: rest =>
      o ← vw_getitem srcvec src;
      tgtvec' ← vw_setitem tgtvec tgt o;
      transfer_byobjs rest srcvec tgtvec'
  end.

(** [DataTransfer.transfer]; the result is the pair of the source and the
    target vector after the call. *)
Definition transfer (self : DataTransfer) (srcvec tgtvec : VecWrapper A)
    (mode : string) (deriv : bool)
  : option (VecWrapper A * VecWrapper A) :=
  if decide (mode = "rev") then
    rhs ← getitem (vec tgtvec) (tgt_slice self);
    v ← match src_slice self with
        | Slice a b => iadd_slice (vec srcvec) a b rhs
        | IdxArray idxs => add_at (vec srcvec) idxs rhs
        end;
    Some (set_vec srcvec v, tgtvec)
  else
    rhs ← getitem (vec srcvec) (src_slice self);
    v ← setitem (vec tgtvec) (tgt_slice self) rhs;
    let tgtvec1 := set_vec tgtvec v in
    if deriv then Some (srcvec, tgtvec1)
    else
      tgtvec2 ← transfer_byobjs (byobj_conns self) srcvec tgtvec1;
      Some (srcvec, tgtvec2).

End transfer.

(** *** Notions used to state what a transfer does *)

Definition Zsum (l : list Z) : Z := foldr Z.add 0%Z l.

(** The indices an index object stands for. *)
Definition expand (ix : index) : list nat :=
  match ix with
  | Slice a b => seq a (b - a)
  | IdxArray l => l
  end.

(** The pairs (source index, target index) of a plan, in the order in
    which a transfer goes through them. *)
Definition plan_pairs (x : DataTransfer) : list (nat * nat) :=
  zip (expand (src_slice x)) (expand (tgt_slice x)).

(** The target-side values of the pairs whose source index is [i], in the
    order of the pairs. *)
Definition addends {A} `{!Inhabited A} (pairs : list (nat * nat))
    (tv : list A) (i : nat) : list A :=
  (λ p, tv !!! p.2) <$> filter (λ p, p.1 = i) pairs.

(** Number of pairs of a plan whose source index is [i]. *)
Definition fan_out (src_idxs : list nat) (i : nat) : nat :=
  length (filter (λ s, s = i) src_idxs).

End data_transfer.

(** ** group.py: connection resolution *)

Module group.
Import numpy util data_transfer.

(** Exceptions the embedded functions raise. *)
Inductive Exception :=
| PromotedNameMatchesMultiple (name : string) (lst : list string)
    (* RuntimeError("Promoted name '%s' matches multiple unknowns: %s") *)
| NotFoundIn (var_name dict_name : string)
    (* RuntimeError("'%s' not found in %s") *)
| SetupNotCalled
    (* RuntimeError('setup() must be called before variables can be accessed') *)
| InvalidVectorName (vector : string)
    (* NameError("'%s' is not a valid vector name") *)
| CantFindVariable (name vector pathname : string)
    (* KeyError("Can't find variable '%s' in %s vector in system '%s'") *)
| ValueError.
    (* unpacking [name.split(':', 1)] of a name without a colon *)

Definition result (A : Type) : Type := Exception + A.

Definition bind_result {A B} (m : result A) (f : A → result B) : result B :=
  match m with
  | inl e => inl e
  | inr a => f a
  end.

(** Metadata of one variable; the functions embedded here read only the
    relative name. *)
Record VarMeta := mkMeta {
  relative_name : string;
  local : bool
}.

(** [_params_dict] and [_unknowns_dict]: pathname to metadata, in
    iteration order. *)
Abbreviation vardict := (list (string * VarMeta)).

Fixpoint dict_get {V} (d : list (string * V)) (k : string) : option V :=
  match d with
  | [] => None
  | (k', v) :: rest => if decide (k' = k) then Some v else dict_get rest k
  end.

(** [d.setdefault(k, []).append(v)] *)
Fixpoint setdefault_append (d : list (string * list string)) (k v : string)
  : list (string * list string) :=
  match d with
  | [] => [(k, [v])]
  | (k', l) :: rest =>
      if decide (k' = k) then (k', l ++ [v]) :: rest
      else (k', l) :: setdefault_append rest k v
  end.

(** The two collecting loops of [_get_implicit_connections]. *)
Definition collect_abs_names (d : vardict) : list (string * list string) :=
  foldl (λ acc e, setdefault_append acc (relative_name e.2) e.1) [] d.

(** The inner loop [for p in pabs: connections[p] = uabs[0]]. *)
Definition connect_params (connections : gmap string string)
    (pabs : list string) (uabs0 : string) : gmap string string :=
  foldl (λ c p, <[p := uabs0]> c) connections pabs.

(** [_get_implicit_connections] *)
Definition _get_implicit_connections (params_dict unknowns_dict : vardict)
  : result (gmap string string) :=
  let abs_unknowns := collect_abs_names unknowns_dict in
  let abs_params := collect_abs_names params_dict in
  match list_find (λ e, 1 < length e.2) abs_unknowns with
  | Some (_, (name, lst)) => inl (PromotedNameMatchesMultiple name lst)
  | None =>
      inr (foldl (λ connections e,
                    let pabs := default [] (dict_get abs_params e.1) in
                    (* every list built by [setdefault_append] has a head *)
                    connect_params connections pabs (default "" (head e.2)))
                 ∅ abs_unknowns)
  end.

(** The loop of [get_absvarpathnames]: the pathnames whose relative name
    is [var_name], in the order of the dictionary. *)
Definition matching_paths (var_name : string) (var_dict : vardict)
  : list string :=
  (filter (λ e, relative_name e.2 = var_name) var_dict).*1.

(** [get_absvarpathnames] *)
Definition get_absvarpathnames (var_name : string) (var_dict : vardict)
    (dict_name : string) : result (list string) :=
  let pnames := matching_paths var_name var_dict in
  match pnames with
  | [] => inl (NotFoundIn var_name dict_name)
  | _ => inr pnames
  end.

(** The body of the loop [for tgt, src in self._src.items()] of
    [_get_explicit_connections]. *)
Definition connect_explicit (params_dict unknowns_dict : vardict)
    (connections : gmap string string) (tgt src : string)
  : result (gmap string string) :=
  bind_result (get_absvarpathnames src unknowns_dict "unknowns") (λ srcs,
  (* [...[0]]: the list returned is never empty *)
  let src_pathname := default "" (head srcs) in
  bind_result (get_absvarpathnames tgt params_dict "params") (λ tgts,
  inr (foldl (λ c tgt_pathname, <[tgt_pathname := src_pathname]> c)
             connections tgts))).

Fixpoint connect_all_explicit (params_dict unknowns_dict : vardict)
    (connections : gmap string string) (links : list (string * string))
  : result (gmap string string) :=
  match links with
  | [] => inr connections
  | (tgt, src) :: rest =>
      bind_result (connect_explicit params_dict unknowns_dict connections tgt src)
        (λ c, connect_all_explicit params_dict unknowns_dict c rest)
  end.

(** *** Storage shared between a group and its children *)

(** The root buffers all vector wrappers look into, and the values of the
    variables passed by object. *)
Record Store := mkStore {
  params_vec : ndarray;
  unknowns_vec : ndarray;
  resids_vec : ndarray;
  dparams_vec : ndarray;
  dunknowns_vec : ndarray;
  dresids_vec : ndarray;
  params_objs : gmap string nat;
  unknowns_objs : gmap string nat
}.

(** Modelled from the spec: the vector wrapper of the storage collaborator
    is not among the sources.  A wrapper is a window [offset, offset+size)
    of a root buffer (its [vec] is a view, not a copy) together with the
    slice [(start, stop)] of every variable inside that window, in the
    order of [keys()]. *)
Record VecView := mkView {
  offset : nat;
  size : nat;
  slices : list (string * (nat * nat))
}.

(** [w.vec] *)
Definition read_view (buf : ndarray) (w : VecView) : ndarray :=
  take (size w) (drop (offset w) buf).

(** Writing [new] through the view [w.vec]. *)
Definition write_view (buf : ndarray) (w : VecView) (new : ndarray) : ndarray :=
  take (offset w) buf ++ new ++ drop (offset w + length new) buf.

(** [w.keys()] *)
Definition keys (w : VecView) : list string := (slices w).*1.

(** [w.flat[var]] *)
Definition flat (buf : ndarray) (w : VecView) (var : string) : option ndarray :=
  se ← dict_get (slices w) var;
  getitem (read_view buf w) (Slice se.1 se.2).

(** [w[var] += rhs] *)
Definition vw_iadd (buf : ndarray) (w : VecView) (var : string) (rhs : ndarray)
  : option ndarray :=
  se ← dict_get (slices w) var;
  new ← iadd_slice (read_view buf w) se.1 se.2 rhs;
  Some (write_view buf w new).

(** [w.vec *= -1.0] *)
Definition negate_vec (buf : ndarray) (w : VecView) : ndarray :=
  write_view buf w ((λ x, (x * -1)%Z) <$> read_view buf w).

(** [w.vec[:] = 0.0] *)
Definition zero_array (a : ndarray) : ndarray := replicate (length a) 0%Z.

(** The six wrappers a view (or [varmanager.vectors()]) bundles. *)
Record Views := mkViews {
  params : VecView;
  unknowns : VecView;
  resids : VecView;
  dparams : VecView;
  dunknowns : VecView;
  dresids : VecView
}.

(** [vectors_attrs] lists the names, apart from those of the six wrappers,
    under which the object that [vectors()] returns has an attribute that
    counts as true, such as [__class__]: item access tests a vector name
    with [getattr]. *)
Record VarManager := mkVarManager {
  vectors : Views;
  data_xfer : list (string * DataTransfer);
  vectors_attrs : list string
}.

(** Modelled from the spec: [VarManager._transfer_data] is not among the
    sources.  It looks up the plan of the target system and runs it on the
    derivative vectors in a derivative pass and on the value vectors
    otherwise; without a plan it does nothing. *)
Definition _transfer_data (vm : VarManager) (target_system mode : string)
    (deriv : bool) (st : Store) : option Store :=
  match dict_get (data_xfer vm) target_system with
  | None => Some st
  | Some x =>
      let v := vectors vm in
      if deriv then
        r ← transfer x (mkVec (read_view (dunknowns_vec st) (dunknowns v)) ∅)
                       (mkVec (read_view (dparams_vec st) (dparams v)) ∅)
                       mode true;
        Some (mkStore (params_vec st) (unknowns_vec st) (resids_vec st)
                (write_view (dparams_vec st) (dparams v) (vec r.2))
                (write_view (dunknowns_vec st) (dunknowns v) (vec r.1))
                (dresids_vec st) (params_objs st) (unknowns_objs st))
      else
        r ← transfer x (mkVec (read_view (unknowns_vec st) (unknowns v))
                              (unknowns_objs st))
                       (mkVec (read_view (params_vec st) (params v))
                              (params_objs st))
                       mode false;
        Some (mkStore (write_view (params_vec st) (params v) (vec r.2))
                (write_view (unknowns_vec st) (unknowns v) (vec r.1))
                (resids_vec st) (dparams_vec st) (dunknowns_vec st)
                (dresids_vec st) (objs r.2) (objs r.1))
  end.

Definition set_dresids (st : Store) (v : ndarray) : Store :=
  mkStore (params_vec st) (unknowns_vec st) (resids_vec st) (dparams_vec st)
    (dunknowns_vec st) v (params_objs st) (unknowns_objs st).

Definition set_dunknowns (st : Store) (v : ndarray) : Store :=
  mkStore (params_vec st) (unknowns_vec st) (resids_vec st) (dparams_vec st)
    v (dresids_vec st) (params_objs st) (unknowns_objs st).

Definition set_dparams (st : Store) (v : ndarray) : Store :=
  mkStore (params_vec st) (unknowns_vec st) (resids_vec st) v
    (dunknowns_vec st) (dresids_vec st) (params_objs st) (unknowns_objs st).

(** The loop [for var in vars: dst[var] += src.flat[var]] between two
    wrappers over different buffers. *)
Fixpoint iadd_flat (vars : list string) (wdst wsrc : VecView)
    (dst src : ndarray) : option ndarray :=
  match vars with
  | [] => Some dst
  | var :: rest =>
      rhs ← flat src wsrc var;
      dst' ← vw_iadd dst wdst var rhs;
      iadd_flat rest wdst wsrc dst' src
  end.

(** [for var in dunknowns.keys(): dresids[var] += dunknowns.flat[var]] *)
Definition add_dunknowns_to_dresids (view : Views) (st : Store) : option Store :=
  dr ← iadd_flat (keys (dunknowns view)) (dresids view) (dunknowns view)
         (dresids_vec st) (dunknowns_vec st);
  Some (set_dresids st dr).

(** [for var in dunknowns.keys(): dunknowns[var] += dresids.flat[var]] *)
Definition add_dresids_to_dunknowns (view : Views) (st : Store) : option Store :=
  du ← iadd_flat (keys (dunknowns view)) (dunknowns view) (dresids view)
         (dunknowns_vec st) (dresids_vec st);
  Some (set_dunknowns st du).

(** *** The system tree *)

(** An entry of a local Jacobian: an instance of one of the [real_types]
    (a bare scalar) or a two-dimensional array, given by its rows. *)
Inductive jval :=
| JReal (x : Z)
| JArray (rows : list (list Z)).

(** Jacobian dictionaries are objects: a reference into the heap. *)
Abbreviation jdict := (gmap (string * string) jval).
Abbreviation JHeap := (gmap nat jdict).

(** The calls a group makes, in order; a call of a child's [apply_linear]
    carries the calls made inside it. *)
Inductive Event :=
| TransferData (target_system mode : string) (deriv : bool)
| ApplyLinear (name mode : string) (inner : list Event)
| LnSolve (mode : string).

(** The arrays [solve_linear] reads and writes on the group. *)
Record LinearState := mkLinear {
  sol_vec_array : ndarray;
  rhs_vec_array : ndarray;
  rhs_buf : ndarray;
  sol_buf : ndarray
}.

(** A leaf and what the leaf computation collaborator provides for it. *)
Record CompAttrs := mkComp {
  c_name : string;
  c_pathname : string;
  c_force_fd : bool;                       (* fd_options['force_fd'] *)
  c_apply_linear : Views → string → Store → option Store;
  c_jacobian : Views → Store → JHeap → option nat * JHeap;
  c_fd_jacobian : Views → Store → JHeap → option nat * JHeap
}.

Record GroupAttrs := mkGroup {
  g_name : string;
  g_pathname : string;
  g_active : bool;                         (* is_active() *)
  _src : list (string * string);           (* target to source *)
  _params_dict : vardict;
  _unknowns_dict : vardict;
  _varmanager : option VarManager;
  _views : list (string * Views);
  g_force_fd : bool;                       (* fd_options['force_fd'] *)
  g_fd_jacobian : Views → Store → JHeap → option nat * JHeap;
  ln_solver_mode : string;                 (* ln_solver.options['mode'] *)
  ln_solver_solve : ndarray → string → Store * LinearState →
                    option (ndarray * (Store * LinearState))
}.

(** [Component] stands for a component that is not a [ParamComp]. *)
Inductive System :=
| Component (c : CompAttrs)
| ParamComp (c : CompAttrs)
| Group (g : GroupAttrs) (_subsystems _local_subsystems : list (string * System)).

Definition sys_name (system : System) : string :=
  match system with
  | Component c | ParamComp c => c_name c
  | Group g _ _ => g_name g
  end.

Definition sys_pathname (system : System) : string :=
  match system with
  | Component c | ParamComp c => c_pathname c
  | Group g _ _ => g_pathname g
  end.

Definition force_fd (system : System) : bool :=
  match system with
  | Component c | ParamComp c => c_force_fd c
  | Group g _ _ => g_force_fd g
  end.

Definition fd_jacobian (system : System)
  : Views → Store → JHeap → option nat * JHeap :=
  match system with
  | Component c | ParamComp c => c_fd_jacobian c
  | Group g _ _ => g_fd_jacobian g
  end.

(** [isinstance(system, Component) and not isinstance(system, ParamComp)] *)
Definition is_explicit_component (system : System) : bool :=
  match system with
  | Component _ => true
  | _ => false
  end.

(** [subsystems(local)] *)
Definition subsystems (self : System) (local : bool) : list (string * System) :=
  match self with
  | Group _ subs locals => if local then locals else subs
  | _ => []
  end.

(** [isinstance(subsystem, Group)] *)
Definition is_group (system : System) : bool :=
  match system with
  | Group _ _ _ => true
  | _ => false
  end.

(** [subgroups()] *)
Definition subgroups (self : System) : list (string * System) :=
  filter (λ e, is_group e.2) (subsystems self false).

(** [_get_explicit_connections] *)
Fixpoint _get_explicit_connections (self : System) : result (gmap string string) :=
  match self with
  | Group g subs _ =>
      bind_result
        ((fix update (l : list (string * System)) (connections : gmap string string)
            : result (gmap string string) :=
            match l with
            | [] => inr connections
            | (_, sub) :: rest =>
                if is_group sub then
                  bind_result (_get_explicit_connections sub)
                    (λ c, update rest (c ∪ connections))
                else update rest connections
            end) subs ∅)
        (λ connections,
           connect_all_explicit (_params_dict g) (_unknowns_dict g)
             connections (_src g))
  | _ => inr ∅
  end.

(** *** apply_linear *)

(** The body of the loop of [Group.apply_linear] for one local child;
    [rec] is the child's own [apply_linear]. *)
Definition apply_linear_child
    (rec : System → Views → string → Store → option (Store * list Event))
    (g : GroupAttrs) (mode : string) (system : System) (st : Store)
  : option (Store * list Event) :=
  view ← dict_get (_views g) (sys_name system);
  match system with
  | Component c =>
      if decide (mode = "fwd") then
        st1 ← c_apply_linear c view mode st;
        let st2 := set_dresids st1 (negate_vec (dresids_vec st1) (dresids view)) in
        st3 ← add_dunknowns_to_dresids view st2;
        Some (st3, [ApplyLinear (sys_name system) mode []])
      else if decide (mode = "rev") then
        let st1 := set_dresids st (negate_vec (dresids_vec st) (dresids view)) in
        st2 ← c_apply_linear c view mode st1;
        let st3 := set_dresids st2 (negate_vec (dresids_vec st2) (dresids view)) in
        st4 ← add_dresids_to_dunknowns view st3;
        Some (st4, [ApplyLinear (sys_name system) mode []])
      else Some (st, [])
  | _ =>
      r ← rec system view mode st;
      Some (r.1, [ApplyLinear (sys_name system) mode r.2])
  end.

(** The loop of [Group.apply_linear] over the local children, in order. *)
Fixpoint apply_linear_children
    (rec : System → Views → string → Store → option (Store * list Event))
    (g : GroupAttrs) (mode : string) (l : list (string * System)) (st : Store)
  : option (Store * list Event) :=
  match l with
  | [] => Some (st, [])
  | (_, system) :: rest =>
      r ← apply_linear_child rec g mode system st;
      r' ← apply_linear_children rec g mode rest r.1;
      Some (r'.1, r.2 ++ r'.2)
  end.

(** The full scatter at either end of [Group.apply_linear]. *)
Definition full_scatter (g : GroupAttrs) (mode : string) (st : Store)
  : option (Store * list Event) :=
  vm ← _varmanager g;
  st' ← _transfer_data vm "" mode true st;
  Some (st', [TransferData "" mode true]).

(** [apply_linear]: of a leaf, the collaborator's operator; of a group,
    [Group.apply_linear], which does not read the vectors it is passed. *)
Fixpoint apply_linear (self : System) (view : Views) (mode : string)
    (st : Store) : option (Store * list Event) :=
  match self with
  | Component c | ParamComp c =>
      st' ← c_apply_linear c view mode st; Some (st', [])
  | Group g _ locals =>
      if negb (g_active g) then Some (st, [])
      else
        r0 ← (if decide (mode = "fwd") then full_scatter g "fwd" st
              else Some (st, []));
        r1 ← apply_linear_children apply_linear g mode locals r0.1;
        r2 ← (if decide (mode = "rev") then full_scatter g "rev" r1.1
              else Some (r1.1, []));
        Some (r2.1, r0.2 ++ r1.2 ++ r2.2)
  end.

(** *** solve_linear *)

Section solve_linear.

(** The scalar norm the storage collaborator reports for a vector. *)
Variable norm : ndarray → float.

(** The binary64 value of the literal [1e-15]. *)
Definition tolerance : float := 0x1.203af9ee75616p-50%float.

Definition set_sol_vec (ls : LinearState) (a : ndarray) : LinearState :=
  mkLinear a (rhs_vec_array ls) (rhs_buf ls) (sol_buf ls).

(** [a[:] = v] *)
Definition assign_all (a v : ndarray) : option ndarray :=
  setitem a (Slice 0 (length a)) v.

(** [Group.solve_linear]; the first component of the result is the
    value returned, [None] for Python's [None]. *)
Definition solve_linear (g : GroupAttrs) (rhs : ndarray) (mode : string)
    (st : Store * LinearState)
  : option (option ndarray * (Store * LinearState) * list Event) :=
  if negb (g_active g) then Some (None, st, [])
  else if PrimFloat.ltb (norm rhs) tolerance then
    let sol := zero_array (sol_vec_array st.2) in
    Some (Some sol, (st.1, set_sol_vec st.2 sol), [])
  else
    let mode := if decide (mode = "auto") then ln_solver_mode g else mode in
    rb ← assign_all (rhs_buf st.2) (rhs_vec_array st.2);
    sb ← assign_all (sol_buf st.2) (sol_vec_array st.2);
    r ← ln_solver_solve g rb mode
          (st.1, mkLinear (sol_vec_array st.2) (rhs_vec_array st.2) rb sb);
    let ls := r.2.2 in
    sb' ← assign_all (sol_buf ls) r.1;
    sv ← assign_all (sol_vec_array ls) sb';
    Some (None, (r.2.1, mkLinear sv (rhs_vec_array ls) (rhs_buf ls) sb'),
          [LnSolve mode]).

End solve_linear.

(** *** jacobian *)

(** The heap of Jacobian dictionaries and the attribute [_jacobian_cache]
    of every system, by pathname. *)
Record JacState := mkJac {
  heap : JHeap;
  _jacobian_cache : gmap string (option nat)
}.

(** [np.array([[J]])] for an entry that is an instance of [real_types]. *)
Definition normalize_entry (J : jval) : jval :=
  match J with
  | JReal x => JArray [[x]]
  | _ => J
  end.

(** The body of the loop of [Group.jacobian] for one local child; [rec] is
    the child's own [jacobian]. *)
Definition jacobian_child
    (rec : System → Views → Store → JacState → option (option nat * JacState))
    (g : GroupAttrs) (st : Store) (system : System) (js : JacState)
  : option JacState :=
  view ← dict_get (_views g) (sys_name system);
  r ← (if force_fd system then
         let r := fd_jacobian system view st (heap js) in
         Some (r.1, mkJac r.2 (_jacobian_cache js))
       else rec system view st js);
  let jacobian_cache := r.1 in
  let js1 :=
    if is_explicit_component system
    then mkJac (heap r.2)
               (<[sys_pathname system := jacobian_cache]> (_jacobian_cache r.2))
    else r.2 in
  match jacobian_cache with
  | Some ref =>
      Some (mkJac (alter (fmap normalize_entry) ref (heap js1))
                  (_jacobian_cache js1))
  | None => Some js1
  end.

(** The loop of [Group.jacobian] over the local children, in order. *)
Fixpoint jacobian_children
    (rec : System → Views → Store → JacState → option (option nat * JacState))
    (g : GroupAttrs) (st : Store) (l : list (string * System)) (js : JacState)
  : option JacState :=
  match l with
  | [] => Some js
  | (_, system) :: rest =>
      js1 ← jacobian_child rec g st system js;
      jacobian_children rec g st rest js1
  end.

(** [jacobian]: of a leaf, the collaborator's routine; of a group,
    [Group.jacobian], which returns [None]. *)
Fixpoint jacobian (self : System) (view : Views) (st : Store) (js : JacState)
  : option (option nat * JacState) :=
  match self with
  | Component c | ParamComp c =>
      let r := c_jacobian c view st (heap js) in
      Some (r.1, mkJac r.2 (_jacobian_cache js))
  | Group g _ locals =>
      js' ← jacobian_children jacobian g st locals js;
      Some (None, js')
  end.

(** *** Item access *)

(** The argument of [__getitem__]: a name, or a tuple of a name and the
    name of a vector. *)
Inductive Key :=
| KName (name : string)
| KTuple (name vector : string).

Inductive Value :=
| VArray (a : ndarray)
| VObj (o : nat).

(** What [__getitem__] returns. *)
Inductive Item :=
| ISystem (s : System)
| INone
| IValue (v : Value).

(** [name.split(':')] *)
Fixpoint split_colon (name : string) : list string :=
  match name with
  | EmptyString => [EmptyString]
  | String c rest =>
      if Ascii.eqb c ":"%char then EmptyString :: split_colon rest
      else match split_colon rest with
           | h :: t => String c h :: t
           | [] => [String c EmptyString]
           end
  end.

(** [name.split(':', 1)] *)
Fixpoint split_colon_once (name : string) : list string :=
  match name with
  | EmptyString => [EmptyString]
  | String c rest =>
      if Ascii.eqb c ":"%char then [EmptyString; rest]
      else match split_colon_once rest with
           | h :: t => String c h :: t
           | [] => [String c EmptyString]
           end
  end.

(** The wrapper that [getattr(vectors, vector)] gives for the name of one
    of the six vectors, [None] for any other name. *)
Definition select_vector (v : Views) (st : Store) (vector : string)
  : option (VecView * ndarray * gmap string nat) :=
  if decide (vector = "params") then Some (params v, params_vec st, params_objs st)
  else if decide (vector = "unknowns") then Some (unknowns v, unknowns_vec st, unknowns_objs st)
  else if decide (vector = "resids") then Some (resids v, resids_vec st, ∅)
  else if decide (vector = "dparams") then Some (dparams v, dparams_vec st, ∅)
  else if decide (vector = "dunknowns") then Some (dunknowns v, dunknowns_vec st, ∅)
  else if decide (vector = "dresids") then Some (dresids v, dresids_vec st, ∅)
  else None.

(** The truth value of [getattr(self._varmanager.vectors(), vector, False)]:
    true for a vector and for any other attribute of the object, false for
    a name it has no attribute for. *)
Definition has_vector_attr (vm : VarManager) (st : Store) (vector : string)
  : bool :=
  bool_decide (is_Some (select_vector (vectors vm) st vector))
  || bool_decide (vector ∈ vectors_attrs vm).

(** Modelled from the spec: [VarManager.__getitem__] is not among the
    sources.  Element access by variable path, in the unknowns unless a
    vector is named; an unknown path or vector name raises [KeyError]. *)
Definition vm_getitem (vm : VarManager) (st : Store) (key : Key) : option Value :=
  let '(name, vector) := match key with
                         | KName n => (n, "unknowns")
                         | KTuple n v => (n, v)
                         end in
  w ← select_vector (vectors vm) st vector;
  match flat w.1.2 w.1.1 name with
  | Some a => Some (VArray a)
  | None => VObj <$> (w.2 !! name)
  end.

(** The loop over [parts] at the head of [__getitem__]: the subsystem the
    name leads to, [None] when the loop breaks. *)
Fixpoint find_subsystem (sys : System) (parts : list string) : option System :=
  match parts with
  | [] => Some sys
  | part :: rest =>
      match dict_get (subsystems sys false) part with
      | Some sub => find_subsystem sub rest
      | None => None
      end
  end.

(** [Group.__getitem__]; a leaf has no item access among the sources and
    is taken to raise. *)
Fixpoint __getitem__ (self : System) (st : Store) (key : Key) : result Item :=
  match self with
  | Group g subs _ =>
      match (match key with
             | KName name => find_subsystem self (split_colon name)
             | KTuple _ _ => None
             end) with
      | Some sys => inr (ISystem sys)
      | None =>
          if negb (g_active g) then inr INone
          else match _varmanager g with
               | None => inl SetupNotCalled
               | Some vm =>
                   match vm_getitem vm st key with
                   | Some v => inr (IValue v)
                   | None =>
                       let '(name, vector, istuple) :=
                         match key with
                         | KName n => (n, "unknowns", false)
                         | KTuple n v => (n, v, true)
                         end in
                       if istuple && negb (has_vector_attr vm st vector)
                       then inl (InvalidVectorName vector)
                       else
                         match split_colon_once name with
                         | [subsys; subname] =>
                             let subkey := if istuple then KTuple subname vector
                                           else KName subname in
                             let err := CantFindVariable name vector (g_pathname g) in
                             (fix lookup (l : list (string * System)) : result Item :=
                                match l with
                                | [] => inl err
                                | (n, sub) :: rest =>
                                    if decide (n = subsys) then
                                      match __getitem__ sub st subkey with
                                      | inr it => inr it
                                      | inl _ => inl err
                                      end
                                    else lookup rest
                                end) subs
                         | _ => inl ValueError
                         end
                   end
               end
      end
  | _ => inl (CantFindVariable "" "" (sys_pathname self))
  end.

(** Modelled from the spec: the wrapper's [__setitem__] is not among the
    sources.  A numeric variable is written into its slice of the buffer,
    a variable passed by object is rebound; an unknown name raises. *)
Definition set_unknown (vm : VarManager) (st : Store) (name : string)
    (val : Value) : option Store :=
  let w := unknowns (vectors vm) in
  match dict_get (slices w) name, val with
  | Some se, VArray a =>
      new ← setitem (read_view (unknowns_vec st) w) (Slice se.1 se.2) a;
      Some (mkStore (params_vec st) (write_view (unknowns_vec st) w new)
              (resids_vec st) (dparams_vec st) (dunknowns_vec st)
              (dresids_vec st) (params_objs st) (unknowns_objs st))
  | Some _, VObj _ => None
  | None, VObj o =>
      match unknowns_objs st !! name with
      | Some _ =>
          Some (mkStore (params_vec st) (unknowns_vec st) (resids_vec st)
                  (dparams_vec st) (dunknowns_vec st) (dresids_vec st)
                  (params_objs st) (<[name := o]> (unknowns_objs st)))
      | None => None
      end
  | None, VArray _ => None
  end.

(** [Group.__setitem__] *)
Definition __setitem__ (self : System) (st : Store) (name : string)
    (val : Value) : option Store :=
  match self with
  | Group g _ _ =>
      if g_active g then
        vm ← _varmanager g; set_unknown vm st name val
      else Some st
  | _ => None
  end.

(** *** Layouts of vector wrappers, for stating what the propagator leaves *)

(** No two slices overlap. *)
Fixpoint disjoint_slices (sl : list (string * (nat * nat))) : Prop :=
  match sl with
  | [] => True
  | x :: rest =>
      Forall (λ y, x.2.2 ≤ y.2.1 ∨ y.2.2 ≤ x.2.1) rest ∧ disjoint_slices rest
  end.

(** The slices of a wrapper of [n] entries: distinct names, inside the
    wrapper, not overlapping. *)
Definition slices_wf (n : nat) (sl : list (string * (nat * nat))) : Prop :=
  NoDup sl.*1 ∧ Forall (λ x, x.2.1 ≤ x.2.2 ∧ x.2.2 ≤ n) sl ∧ disjoint_slices sl.

(** The window of a wrapper lies inside its buffer. *)
Definition window_wf (buf : ndarray) (w : VecView) : Prop :=
  offset w + size w ≤ length buf.

(** The derivative wrappers of a leaf's view: unknowns and residuals hold
    the same variables in the same layout. *)
Definition deriv_view_wf (st : Store) (view : Views) : Prop :=
  slices (dunknowns view) = slices (dresids view) ∧
  size (dunknowns view) = size (dresids view) ∧
  window_wf (dunknowns_vec st) (dunknowns view) ∧
  window_wf (dresids_vec st) (dresids view) ∧
  slices_wf (size (dresids view)) (slices (dresids view)).

(** Entry [k] of a wrapper belongs to one of its variables. *)
Definition covered (sl : list (string * (nat * nat))) (k : nat) : Prop :=
  ∃ x, x ∈ sl ∧ x.2.1 ≤ k < x.2.2.

End group.

(** ** A two-unit chain, for concrete instances *)

Module examples.
Import numpy util data_transfer group.

(** The leaf [B] computes [y = 2 * x]; its linear operator accumulates
    [2 * dx] into the residual-derivative of [y] in forward mode and
    [2 * dy] into the parameter-derivative of [x] in reverse mode. *)
Definition B_apply_linear (view : Views) (mode : string) (st : Store)
  : option Store :=
  let ix := offset (dparams view) in
  let iy := offset (dresids view) in
  if decide (mode = "fwd") then
    Some (set_dresids st
            (alter (λ r, (r + 2 * dparams_vec st !!! ix)%Z) iy (dresids_vec st)))
  else
    Some (set_dparams st
            (alter (λ p, (p + 2 * dresids_vec st !!! iy)%Z) ix (dparams_vec st))).

Definition no_jacobian (view : Views) (st : Store) (h : JHeap)
  : option nat * JHeap := (None, h).

(** The Jacobian of [B], handed over as a bare scalar in a fresh
    dictionary. *)
Definition B_jacobian (view : Views) (st : Store) (h : JHeap)
  : option nat * JHeap :=
  (Some 0, <[0 := {[("y", "x") := JReal 2]}]> h).

Definition comp_B : CompAttrs :=
  mkComp "B" "B" false B_apply_linear B_jacobian no_jacobian.

Definition comp_A : CompAttrs :=
  mkComp "A" "A" false (λ _ _ st, Some st) B_jacobian no_jacobian.

(** The unknowns are [A]'s output at index 0 and [B]'s output at index 1;
    the only parameter is [B]'s input. *)
Definition view_B : Views :=
  mkViews (mkView 0 1 [("x", (0, 1))]) (mkView 1 1 [("y", (0, 1))])
          (mkView 1 1 [("y", (0, 1))])
          (mkView 0 1 [("x", (0, 1))]) (mkView 1 1 [("y", (0, 1))])
          (mkView 1 1 [("y", (0, 1))]).

Definition view_A : Views :=
  mkViews (mkView 0 0 []) (mkView 0 1 [("y", (0, 1))])
          (mkView 0 1 [("y", (0, 1))])
          (mkView 0 0 []) (mkView 0 1 [("y", (0, 1))])
          (mkView 0 1 [("y", (0, 1))]).

Definition top_vectors : Views :=
  mkViews (mkView 0 1 [("B:x", (0, 1))])
          (mkView 0 2 [("A:y", (0, 1)); ("B:y", (1, 2))])
          (mkView 0 2 [("A:y", (0, 1)); ("B:y", (1, 2))])
          (mkView 0 1 [("B:x", (0, 1))])
          (mkView 0 2 [("A:y", (0, 1)); ("B:y", (1, 2))])
          (mkView 0 2 [("A:y", (0, 1)); ("B:y", (1, 2))]).

(** One connection, from [A:y] (unknown 0) to [B:x] (parameter 0). *)
Definition chain_varmanager : VarManager :=
  mkVarManager top_vectors
    [("", DataTransfer_init [0] [0] [("B:x", "A:y")] [] "fwd")]
    ["__class__"].

Definition no_solver (rhs : ndarray) (mode : string)
    (st : Store * LinearState) : option (ndarray * (Store * LinearState)) :=
  None.

Definition chain_attrs (active : bool) : GroupAttrs :=
  mkGroup "" "" active [("B:x", "A:y")]
    [("B:x", mkMeta "B:x" true)]
    [("A:y", mkMeta "A:y" true); ("B:y", mkMeta "B:y" true)]
    (Some chain_varmanager)
    [("A", view_A); ("B", view_B)]
    false no_jacobian "fwd" no_solver.

Definition chain (active : bool) : System :=
  Group (chain_attrs active)
    [("A", ParamComp comp_A); ("B", Component comp_B)]
    [("A", ParamComp comp_A); ("B", Component comp_B)].

Definition chain_store (dp du dr : ndarray) : Store :=
  mkStore [0%Z] [0%Z; 0%Z] [0%Z; 0%Z] dp du dr ∅ ∅.

Definition chain_linear : LinearState :=
  mkLinear [4%Z; 5%Z] [0%Z; 0%Z] [1%Z; 1%Z] [2%Z; 2%Z].

(** A group in which two unknowns carry the relative name [x], with one
    declared link from [x] to [y]. *)
Definition two_sources : System :=
  Group (mkGroup "" "" true [("y", "x")]
           [("c:y", mkMeta "y" true)]
           [("a:x", mkMeta "x" true); ("b:x", mkMeta "x" true)]
           None [] false no_jacobian "fwd" no_solver)
        [] [].

End examples.

(** ** group.py: building the tree, clearing and sizing *)

Module group_tree.
Import numpy util data_transfer group.

(** [d[k] = v] on an ordered dictionary: an existing key keeps its place. *)
Fixpoint dict_set {V} (d : list (string * V)) (k : string) (v : V)
  : list (string * V) :=
  match d with
  | [] => [(k, v)]
  | (k', v') :: rest =>
      if decide (k' = k) then (k', v) :: rest
      else (k', v') :: dict_set rest k v
  end.

(** [system.name = name] *)
Definition set_name (system : System) (name : string) : System :=
  match system with
  | Component c =>
      Component (mkComp name (c_pathname c) (c_force_fd c) (c_apply_linear c)
                   (c_jacobian c) (c_fd_jacobian c))
  | ParamComp c =>
      ParamComp (mkComp name (c_pathname c) (c_force_fd c) (c_apply_linear c)
                   (c_jacobian c) (c_fd_jacobian c))
  | Group g subs locals =>
      Group (mkGroup name (g_pathname g) (g_active g) (_src g)
               (_params_dict g) (_unknowns_dict g) (_varmanager g) (_views g)
               (g_force_fd g) (g_fd_jacobian g) (ln_solver_mode g)
               (ln_solver_solve g))
            subs locals
  end.

(** [holds self system]: the object [system] is [self] or one that [self]
    reaches through its registered or its local subsystems.  Objects are
    embedded as values, and an object that the tree holds is equal to the
    entry that holds it. *)
Inductive holds : System → System → Prop :=
| holds_here s : holds s s
| holds_sub g subs locals k c s :
    (k, c) ∈ subs → holds c s → holds (Group g subs locals) s
| holds_local g subs locals k c s :
    (k, c) ∈ locals → holds c s → holds (Group g subs locals) s.

(** [Group.add(name, system)], called without [promotes], for a [system]
    that the group does not hold yet; the result is the group afterwards
    together with the system returned.  [system.name = name] renames the
    object passed, which the group then reaches through the new entry
    only; an object that the group already holds would be renamed in its
    other entries as well, a case that is left out here.  A leaf has no
    [add]. *)
Definition add (self : System) (name : string) (system : System)
  : option (System * System) :=
  match self with
  | Group g subs locals =>
      let system' := set_name system name in
      Some (Group g (dict_set subs name system') locals, system')
  | _ => None
  end.

(** [Group.connect(source, target)] *)
Definition connect (self : System) (source target : string) : option System :=
  match self with
  | Group g subs locals =>
      Some (Group (mkGroup (g_name g) (g_pathname g) (g_active g)
                     (dict_set (_src g) target source)
                     (_params_dict g) (_unknowns_dict g) (_varmanager g)
                     (_views g) (g_force_fd g) (g_fd_jacobian g)
                     (ln_solver_mode g) (ln_solver_solve g))
                  subs locals)
  | _ => None
  end.

(** [isinstance(system, Component)]: a parameter component is one. *)
Definition is_component (system : System) : bool :=
  match system with
  | Component _ | ParamComp _ => true
  | Group _ _ _ => false
  end.

(** [components()] *)
Definition components (self : System) : list (string * System) :=
  filter (λ e, is_component e.2) (subsystems self false).

(** The loops of [_add_local_subsystem] over a dictionary of metadata:
    [meta['local'] = True] for every name that starts with [prefix]. *)
Definition mark_local (prefix : string) (d : vardict) : vardict :=
  (λ e, if String.prefix prefix e.1
        then (e.1, mkMeta (relative_name e.2) true) else e) <$> d.

(** [Group._add_local_subsystem(sub)] *)
Definition _add_local_subsystem (self sub : System) : option System :=
  match self with
  | Group g subs locals =>
      let prefix := String.append (sys_pathname sub) ":" in
      Some (Group (mkGroup (g_name g) (g_pathname g) (g_active g) (_src g)
                     (mark_local prefix (_params_dict g))
                     (mark_local prefix (_unknowns_dict g))
                     (_varmanager g) (_views g) (g_force_fd g)
                     (g_fd_jacobian g) (ln_solver_mode g) (ln_solver_solve g))
                  subs (dict_set locals (sys_name sub) sub))
  | _ => None
  end.

(** [w.vec[:] = 0.0] through a wrapper *)
Definition zero_view (buf : ndarray) (w : VecView) : ndarray :=
  write_view buf w (zero_array (read_view buf w)).

(** The body of the loop of [Group.clear_dparams]; [rec] is the child's own
    [clear_dparams]. *)
Definition clear_dparams_child (rec : System → Store → option Store)
    (g : GroupAttrs) (system : System) (st : Store) : option Store :=
  if is_component system then
    view ← dict_get (_views g) (sys_name system);
    Some (set_dparams st (zero_view (dparams_vec st) (dparams view)))
  else rec system st.

Fixpoint clear_dparams_children (rec : System → Store → option Store)
    (g : GroupAttrs) (l : list (string * System)) (st : Store) : option Store :=
  match l with
  | [] => Some st
  | (_, system) :: rest =>
      st' ← clear_dparams_child rec g system st;
      clear_dparams_children rec g rest st'
  end.

(** [Group.clear_dparams]; a leaf has no [clear_dparams]. *)
Fixpoint clear_dparams (self : System) (st : Store) : option Store :=
  match self with
  | Group g _ locals =>
      varmanager ← _varmanager g;
      let st0 := set_dparams st
                   (zero_view (dparams_vec st) (dparams (vectors varmanager))) in
      clear_dparams_children clear_dparams g locals st0
  | _ => None
  end.

Section get_req_procs.

(** [get_req_procs] of a leaf: the least and the greatest number of
    processes it can use, [None] for no upper limit. *)
Variable leaf_req_procs : CompAttrs → Z * option Z.

(** One round of the loop of [Group.get_req_procs]. *)
Definition req_procs_step (acc sub : Z * option Z) : Z * option Z :=
  (Z.max acc.1 sub.1,
   match acc.2 with
   | Some max_procs =>
       match sub.2 with
       | None => None
       | Some sub_max => Some (Z.max max_procs sub_max)
       end
   | None => None
   end).

Fixpoint req_procs_loop (rec : System → Z * option Z)
    (l : list (string * System)) (acc : Z * option Z) : Z * option Z :=
  match l with
  | [] => acc
  | (_, sub) :: rest => req_procs_loop rec rest (req_procs_step acc (rec sub))
  end.

(** [get_req_procs] *)
Fixpoint get_req_procs (self : System) : Z * option Z :=
  match self with
  | Component c | ParamComp c => leaf_req_procs c
  | Group _ subs _ => req_procs_loop get_req_procs subs (1%Z, Some 1%Z)
  end.

End get_req_procs.

(** *** apply_nonlinear *)

(** The calls [Group.apply_nonlinear] makes. *)
Inductive NlEvent :=
| NlTransfer (target_system : string)
| NlApply (name : string) (inner : list NlEvent).

Section apply_nonlinear.

(** [apply_nonlinear] of a leaf, by the leaf computation collaborator. *)
Variable leaf_apply_nonlinear : CompAttrs → Views → Store → option Store.

(** The body of the loop of [Group.apply_nonlinear] for the entry
    [(name, sub)] of the local subsystems. *)
Definition apply_nonlinear_child
    (rec : System → option Views → Store → option (Store * list NlEvent))
    (g : GroupAttrs) (name : string) (sub : System) (st : Store)
  : option (Store * list NlEvent) :=
  vm ← _varmanager g;
  st1 ← _transfer_data vm name "fwd" false st;
  view ← dict_get (_views g) (sys_name sub);
  r ← rec sub (Some view) st1;
  Some (r.1, [NlTransfer name; NlApply (sys_name sub) r.2]).

Fixpoint apply_nonlinear_children
    (rec : System → option Views → Store → option (Store * list NlEvent))
    (g : GroupAttrs) (l : list (string * System)) (st : Store)
  : option (Store * list NlEvent) :=
  match l with
  | [] => Some (st, [])
  | (name, sub) :: rest =>
      r ← apply_nonlinear_child rec g name sub st;
      r' ← apply_nonlinear_children rec g rest r.1;
      Some (r'.1, r.2 ++ r'.2)
  end.

(** [apply_nonlinear(params, unknowns, resids)]; [args] is [None] when the
    vectors are left to default.  A group needs its variable manager to
    supply the defaults, and does not read the vectors otherwise. *)
Fixpoint apply_nonlinear (self : System) (args : option Views) (st : Store)
  : option (Store * list NlEvent) :=
  match self with
  | Component c | ParamComp c =>
      view ← args;
      st' ← leaf_apply_nonlinear c view st;
      Some (st', [])
  | Group g _ locals =>
      if negb (g_active g) then Some (st, [])
      else
        _ ← match args with
            | Some view => Some view
            | None => vectors <$> _varmanager g
            end;
        apply_nonlinear_children apply_nonlinear g locals st
  end.

End apply_nonlinear.

(** *** Notions used to state the properties *)

(** What clearing leaves: only the parameter-derivative buffer changes,
    its length stays, and every entry is as before or zero. *)
Definition cleared (st st' : Store) : Prop :=
  st' = set_dparams st (dparams_vec st') ∧
  length (dparams_vec st') = length (dparams_vec st) ∧
  ∀ j, dparams_vec st' !! j = dparams_vec st !! j ∨
       dparams_vec st' !! j = Some 0%Z.

(** The name contains the separator of paths. *)
Fixpoint has_colon (name : string) : bool :=
  match name with
  | EmptyString => false
  | String c rest => Ascii.eqb c ":"%char || has_colon rest
  end.

End group_tree.

(** ** More concrete instances *)

Module examples_more.
Import numpy util data_transfer group group_tree examples.

(** A solver that answers with the right-hand side it is given. *)
Definition echo_solver (rhs : ndarray) (mode : string)
    (st : Store * LinearState) : option (ndarray * (Store * LinearState)) :=
  Some (rhs, st).

Definition echo_attrs : GroupAttrs :=
  mkGroup "" "" true [] [] [] (Some chain_varmanager)
    [("A", view_A); ("B", view_B)] false no_jacobian "rev" echo_solver.

(** A leaf whose residual evaluation does nothing. *)
Definition idle_leaf (c : CompAttrs) (view : Views) (st : Store)
  : option Store := Some st.

End examples_more.

(** * Properties *)

(** ** Arrays *)

Module numpy_facts.
Import numpy util data_transfer.

Lemma positions_lt n ix ps :
  positions n ix = Some ps → Forall (λ k, k < n) ps.
Proof.
  destruct ix as [a b|l]; simpl.
  - intros [= <-]. apply Forall_forall. intros k Hk.
    apply elem_of_seq in Hk. lia.
  - case_decide; [|done]. by intros [= <-].
Qed.

Lemma positions_expand n ix :
  Forall (λ k, k < n) (expand ix) → positions n ix = Some (expand ix).
Proof.
  destruct ix as [a b|l]; simpl; intros H.
  - f_equal. f_equal.
    destruct (decide (b ≤ n)) as [|Hgt]; [lia|].
    destruct (decide (b ≤ a)) as [|Hlt]; [lia|].
    exfalso. rewrite Forall_forall in H.
    specialize (H (b - 1)). rewrite elem_of_seq in H. lia.
  - by rewrite decide_True.
Qed.

Lemma gather_in_range {A} `{!Inhabited A} (a : list A) (ps : list nat) :
  Forall (λ k, k < length a) ps →
  mapM (λ k, a !! k) ps = Some ((λ k, a !!! k) <$> ps).
Proof.
  intros H. apply mapM_Some. induction H as [|k ps Hk _ IH]; simpl.
  - constructor.
  - constructor; [|done]. by apply list_lookup_lookup_total_lt.
Qed.

Lemma getitem_expand {A} `{!Inhabited A} (a : list A) ix :
  Forall (λ k, k < length a) (expand ix) →
  getitem a ix = Some ((λ k, a !!! k) <$> expand ix).
Proof.
  intros H. unfold getitem. rewrite positions_expand by done. simpl.
  by apply gather_in_range.
Qed.

Lemma broadcast_to_same {A} n (v : list A) :
  length v = n → broadcast_to n v = Some v.
Proof. intros H. unfold broadcast_to. by rewrite decide_True. Qed.

Lemma length_scatter_set {A} kvs (a : list A) :
  length (scatter_set a kvs) = length a.
Proof.
  revert a. induction kvs as [|kv kvs IH]; intros a; [done|].
  unfold scatter_set in *. simpl. rewrite IH. by rewrite length_insert.
Qed.

Lemma length_scatter_add {A} `{!Dtype A} kvs (a : list A) :
  length (scatter_add a kvs) = length a.
Proof.
  revert a. induction kvs as [|kv kvs IH]; intros a; [done|].
  unfold scatter_add in *. simpl. rewrite IH. by rewrite length_alter.
Qed.

(** A slot holds, after the additions, what the additions of the pairs
    that name it give, one after the other, from what it held. *)
Lemma scatter_add_lookup_fold {A} `{!Dtype A} kvs (a : list A) i :
  scatter_add a kvs !! i =
  (λ y, foldl np_add y (snd <$> filter (λ kv, kv.1 = i) kvs)) <$> a !! i.
Proof.
  revert a. induction kvs as [|[k v] kvs IH]; intros a.
  - cbn. by destruct (a !! i).
  - unfold scatter_add in *. simpl foldl. rewrite IH.
    rewrite filter_cons. simpl. case_decide as Hk.
    + subst k. rewrite list_lookup_alter_eq.
      by destruct (a !! i).
    + by rewrite list_lookup_alter_ne.
Qed.

Lemma foldl_Zadd (l : list Z) (y : Z) :
  foldl np_add y l = (y + Zsum l)%Z.
Proof.
  unfold Zsum. revert y. induction l as [|x l IH]; intros y; simpl.
  - lia.
  - rewrite IH. unfold np_add, int_dtype. lia.
Qed.

Lemma scatter_add_lookup kvs (a : ndarray) i :
  scatter_add a kvs !! i =
  (λ y, (y + Zsum (snd <$> filter (λ kv, kv.1 = i) kvs))%Z) <$> a !! i.
Proof.
  rewrite scatter_add_lookup_fold.
  destruct (a !! i); simpl; [|done]. by rewrite foldl_Zadd.
Qed.

Lemma scatter_set_lookup_notin {A} kvs (a : list A) i :
  i ∉ kvs.*1 → scatter_set a kvs !! i = a !! i.
Proof.
  revert a. induction kvs as [|[k v] kvs IH]; intros a Hi; [done|].
  unfold scatter_set in *. simpl in *.
  apply not_elem_of_cons in Hi as [Hne Hi].
  rewrite IH by done. by rewrite list_lookup_insert_ne.
Qed.

Lemma scatter_set_lookup_in {A} kvs (a : list A) i v :
  NoDup kvs.*1 → (i, v) ∈ kvs → i < length a →
  scatter_set a kvs !! i = Some v.
Proof.
  revert a. induction kvs as [|[k w] kvs IH]; intros a Hnd Hin Hlt.
  - by apply elem_of_nil in Hin.
  - unfold scatter_set in *. simpl in *.
    apply NoDup_cons in Hnd as [Hk Hnd].
    apply elem_of_cons in Hin as [[= -> ->]|Hin].
    + fold (scatter_set (<[k:=w]> a) kvs).
      rewrite scatter_set_lookup_notin by done.
      by apply list_lookup_insert_eq.
    + apply IH; [done..|]. by rewrite length_insert.
Qed.

End numpy_facts.

(** ** Transfer plans *)

Module plan_facts.
Import numpy util data_transfer numpy_facts.

Lemma expand_to_slice l : expand (to_slice l) = l.
Proof.
  destruct l as [|a l]; [done|]. unfold to_slice.
  case_decide as H; [|done].
  unfold expand.
  replace (a + length (a :: l) - a) with (length (a :: l)) by lia.
  by rewrite <- H.
Qed.

Lemma zip_swap {A B} (l : list A) (k : list B) :
  (λ p, (p.2, p.1)) <$> zip l k = zip k l.
Proof.
  revert k. induction l as [|x l IH]; intros [|y k]; csimpl; try done.
  by rewrite IH.
Qed.

Lemma zip_snd_fst {A B} (ps : list (A * B)) :
  zip (ps.*2) (ps.*1) = (λ p, (p.2, p.1)) <$> ps.
Proof. induction ps as [|[x y] ps IH]; csimpl; [done|]. by rewrite IH. Qed.

(** The slices of a plan stand for the declared pairs, in some order. *)
Lemma init_pairs src tgt vc bc mode :
  length src = length tgt →
  let x := DataTransfer_init src tgt vc bc mode in
  zip (expand (src_slice x)) (expand (tgt_slice x)) ≡ₚ zip src tgt.
Proof.
  intros Hlen. unfold DataTransfer_init, to_slices.
  case_decide; simpl; rewrite !expand_to_slice.
  - rewrite zip_fst_snd. apply merge_sort_Permutation.
  - rewrite zip_snd_fst, <- (zip_swap tgt src).
    apply fmap_Permutation, merge_sort_Permutation.
Qed.

Lemma perm_zip_fst (ps : list (nat * nat)) src tgt :
  length src = length tgt → ps ≡ₚ zip src tgt →
  ps.*1 ≡ₚ src ∧ ps.*2 ≡ₚ tgt.
Proof.
  intros Hlen Hp. split.
  - rewrite Hp. rewrite fst_zip; [done|lia].
  - rewrite Hp. rewrite snd_zip; [done|lia].
Qed.

Lemma init_expand src tgt vc bc mode :
  length src = length tgt →
  let x := DataTransfer_init src tgt vc bc mode in
  expand (src_slice x) ≡ₚ src ∧ expand (tgt_slice x) ≡ₚ tgt ∧
  length (expand (src_slice x)) = length (expand (tgt_slice x)).
Proof.
  intros Hlen x.
  assert (Hx : ∃ ps, expand (src_slice x) = ps.*1 ∧
                     expand (tgt_slice x) = ps.*2 ∧ ps ≡ₚ zip src tgt).
  { subst x. unfold DataTransfer_init, to_slices.
    case_decide; simpl; rewrite !expand_to_slice.
    - eexists. split; [done|]. split; [done|]. apply merge_sort_Permutation.
    - exists ((λ p, (p.2, p.1)) <$> merge_sort fst_le (zip tgt src)).
      rewrite <- !list_fmap_compose. split; [done|]. split; [done|].
      rewrite <- (zip_swap tgt src).
      apply fmap_Permutation, merge_sort_Permutation. }
  destruct Hx as (ps & -> & -> & Hp).
  destruct (perm_zip_fst ps src tgt Hlen Hp) as [H1 H2].
  split; [done|]. split; [done|]. by rewrite !length_fmap.
Qed.

Lemma addends_perm {A} `{!Inhabited A} ps qs (tv : list A) i :
  ps ≡ₚ qs → addends ps tv i ≡ₚ addends qs tv i.
Proof.
  intros H. unfold addends.
  apply fmap_Permutation. by apply filter_Permutation.
Qed.

Lemma zip_fmap_r_pairs {A B C} (f : B → C) (l : list A) (k : list B) :
  zip l (f <$> k) = (λ p, (p.1, f p.2)) <$> zip l k.
Proof.
  revert k. induction l as [|x l IH]; intros [|y k]; csimpl; try done.
  by rewrite IH.
Qed.

Lemma filter_fmap_fst {B C} (f : B → C) (i : nat) (ps : list (nat * B)) :
  filter (λ kv, kv.1 = i) ((λ p, (p.1, f p.2)) <$> ps) =
  (λ p, (p.1, f p.2)) <$> filter (λ p, p.1 = i) ps.
Proof.
  induction ps as [|[x y] ps IH]; [done|].
  rewrite fmap_cons, !filter_cons. simpl.
  case_decide; rewrite IH; done.
Qed.

Lemma scatter_add_addends {A} `{!Dtype A, !Inhabited A}
    (a tv : list A) (S T : list nat) i :
  i < length a →
  scatter_add a (zip S ((λ k, tv !!! k) <$> T)) !! i =
  Some (foldl np_add (a !!! i) (addends (zip S T) tv i)).
Proof.
  intros Hi. rewrite scatter_add_lookup_fold.
  rewrite (list_lookup_lookup_total_lt _ _ Hi). simpl. do 2 f_equal.
  unfold addends.
  rewrite zip_fmap_r_pairs, (filter_fmap_fst (λ k, tv !!! k) i).
  by rewrite <- list_fmap_compose.
Qed.

(** What a reverse transfer computes, in terms of the index objects. *)
Lemma transfer_rev_expand {A} `{!Dtype A, !Inhabited A}
    (x : DataTransfer) (srcvec tgtvec : VecWrapper A) deriv :
  length (expand (src_slice x)) = length (expand (tgt_slice x)) →
  Forall (λ k, k < length (vec srcvec)) (expand (src_slice x)) →
  Forall (λ k, k < length (vec tgtvec)) (expand (tgt_slice x)) →
  transfer x srcvec tgtvec "rev" deriv =
  Some (set_vec srcvec
          (scatter_add (vec srcvec)
             (zip (expand (src_slice x))
                  ((λ k, vec tgtvec !!! k) <$> expand (tgt_slice x)))),
        tgtvec).
Proof.
  intros Hlen Hs Ht. unfold transfer. rewrite decide_True by done.
  rewrite getitem_expand by done. simpl.
  assert (Hb : ∀ (a : list A) idx,
    Forall (λ k, k < length a) (expand idx) →
    length (expand idx) = length (expand (tgt_slice x)) →
    (ps ← positions (length a) idx;
     vs ← broadcast_to (length ps)
            ((λ k, vec tgtvec !!! k) <$> expand (tgt_slice x));
     Some (scatter_add a (zip ps vs))) =
    Some (scatter_add a (zip (expand idx)
            ((λ k, vec tgtvec !!! k) <$> expand (tgt_slice x))))).
  { intros a idx Hin Hl. rewrite positions_expand by done. simpl.
    rewrite broadcast_to_same; [done|]. by rewrite length_fmap. }
  destruct (src_slice x) as [a b|idxs] eqn:Hsl.
  - unfold iadd_slice. rewrite (Hb (vec srcvec) (Slice a b)); done.
  - unfold add_at. rewrite (Hb (vec srcvec) (IdxArray idxs)); done.
Qed.

(** What a forward transfer writes into the target array. *)
Lemma transfer_fwd_expand {A} `{!Dtype A, !Inhabited A}
    (x : DataTransfer) (srcvec tgtvec : VecWrapper A) mode :
  mode ≠ "rev" →
  length (expand (src_slice x)) = length (expand (tgt_slice x)) →
  Forall (λ k, k < length (vec srcvec)) (expand (src_slice x)) →
  Forall (λ k, k < length (vec tgtvec)) (expand (tgt_slice x)) →
  transfer x srcvec tgtvec mode true =
  Some (srcvec,
        set_vec tgtvec
          (scatter_set (vec tgtvec)
             (zip (expand (tgt_slice x))
                  ((λ k, vec srcvec !!! k) <$> expand (src_slice x))))).
Proof.
  intros Hm Hlen Hs Ht. unfold transfer. rewrite decide_False by done.
  rewrite getitem_expand by done. simpl. unfold setitem.
  rewrite positions_expand by done. simpl.
  rewrite broadcast_to_same; [done|]. by rewrite length_fmap.
Qed.

Lemma fan_out_zip src (tgt : list nat) i :
  length src = length tgt →
  length (filter (λ p, p.1 = i) (zip src tgt)) = fan_out src i.
Proof.
  unfold fan_out. revert tgt.
  induction src as [|s src IH]; intros [|t tgt] Hlen; try done.
  simpl zip. rewrite !filter_cons. simpl in *.
  case_decide; simpl; rewrite IH by lia; done.
Qed.

Lemma fan_out_notin src i : i ∉ src → fan_out src i = 0.
Proof.
  unfold fan_out. induction src as [|s src IH]; intros Hi; [done|].
  apply not_elem_of_cons in Hi as [Hne Hi].
  rewrite filter_cons. case_decide; [congruence|]. by apply IH.
Qed.

Lemma fan_out_NoDup src i : NoDup src → i ∈ src → fan_out src i = 1.
Proof.
  unfold fan_out. induction 1 as [|s src Hs Hnd IH]; intros Hi.
  - by apply elem_of_nil in Hi.
  - rewrite filter_cons. case_decide as Heq.
    + subst s. simpl. f_equal. by apply fan_out_notin.
    + apply elem_of_cons in Hi as [->|Hi]; [done|]. by apply IH.
Qed.

Lemma addends_uniform {A} `{!Inhabited A} ps (tv sv : list A) i :
  (∀ s t, (s, t) ∈ ps → tv !!! t = sv !!! s) →
  addends ps tv i = replicate (length (filter (λ p, p.1 = i) ps)) (sv !!! i).
Proof.
  unfold addends. induction ps as [|[s t] ps IH]; intros H; [done|].
  rewrite filter_cons. simpl. case_decide as Hs.
  - subst s. rewrite fmap_cons, length_cons. simpl.
    rewrite IH by (intros; apply H; by right).
    by rewrite (H i t) by by left.
  - apply IH. intros. apply H. by right.
Qed.

End plan_facts.

(** ** data_transfer.py: what a transfer guarantees *)

Module data_transfer_spec.
Import numpy util data_transfer numpy_facts plan_facts.

Lemma transfer_byobjs_assigns {A} conns (srcvec tgtvec : VecWrapper A) :
  NoDup conns.*1 →
  (∀ t s, (t, s) ∈ conns →
          is_Some (objs srcvec !! s) ∧ is_Some (objs tgtvec !! t)) →
  ∃ tv, transfer_byobjs conns srcvec tgtvec = Some tv ∧
        vec tv = vec tgtvec ∧
        (∀ t s, (t, s) ∈ conns → objs tv !! t = objs srcvec !! s) ∧
        (∀ n, n ∉ conns.*1 → objs tv !! n = objs tgtvec !! n).
Proof.
  revert tgtvec. induction conns as [|[t s] conns IH]; intros tgtvec Hnd Hok.
  - exists tgtvec. split; [done|]. split; [done|]. split; [|done].
    intros t s H. by apply elem_of_nil in H.
  - csimpl in Hnd. apply NoDup_cons in Hnd as [Ht Hnd].
    destruct (Hok t s) as [[o Ho] [o' Ho']]; [by left|].
    simpl. unfold vw_getitem, vw_setitem. rewrite Ho. simpl. rewrite Ho'. simpl.
    set (tv1 := {| vec := vec tgtvec; objs := <[t:=o]> (objs tgtvec) |}).
    destruct (IH tv1 Hnd) as (tv & Heq & Hvec & Hin & Hout).
    { intros t' s' Hin. destruct (Hok t' s') as [Hs' Ht']; [by right|].
      split; [done|]. subst tv1. simpl.
      rewrite lookup_insert. case_decide; [by eexists|done]. }
    exists tv. split; [done|]. split; [done|]. split.
    + intros t' s' Hel. apply elem_of_cons in Hel as [[= -> ->]|Hel].
      * rewrite Hout by done. subst tv1. simpl.
        by rewrite lookup_insert_eq.
      * by apply Hin.
    + intros n Hn. csimpl in Hn. apply not_elem_of_cons in Hn as [Hne Hn].
      rewrite Hout by done. subst tv1. simpl.
      by rewrite lookup_insert_ne.
Qed.

(** C3.  A reverse transfer adds, for every pair (source index, target
    index) of the plan, the target-side value into the source-side slot,
    one addition per pair in the order of the plan: afterwards every slot
    of the source array holds what these additions give from its old
    value, so a source index shared by several targets has received the
    value of each of them and not only the last.  The values added to a
    slot are those of the declared pairs that name it, the by-object values
    of the source vector are kept, and the target vector is left as it
    was.  This holds for every element type, [float64] included. *)
Theorem transfer_rev_accumulates {A} `{!Dtype A, !Inhabited A}
    src tgt vc bc cmode (srcvec tgtvec : VecWrapper A) deriv :
  length src = length tgt →
  Forall (λ k, k < length (vec srcvec)) src →
  Forall (λ k, k < length (vec tgtvec)) tgt →
  let x := DataTransfer_init src tgt vc bc cmode in
  ∃ sv',
    transfer x srcvec tgtvec "rev" deriv = Some (sv', tgtvec) ∧
    objs sv' = objs srcvec ∧
    length (vec sv') = length (vec srcvec) ∧
    (∀ i, i < length (vec srcvec) →
          vec sv' !! i =
          Some (foldl np_add (vec srcvec !!! i)
                  (addends (plan_pairs x) (vec tgtvec) i))) ∧
    (∀ i, addends (plan_pairs x) (vec tgtvec) i
          ≡ₚ addends (zip src tgt) (vec tgtvec) i) ∧
    (∀ i, length (addends (plan_pairs x) (vec tgtvec) i) = fan_out src i).
Proof.
  intros Hlen Hs Ht x.
  pose proof (init_expand src tgt vc bc cmode Hlen) as (HS & HT & HL).
  pose proof (init_pairs src tgt vc bc cmode Hlen) as HP.
  simpl in HP. fold x in HS, HT, HL, HP.
  eexists. split.
  - apply transfer_rev_expand; [done| |].
    + by rewrite HS.
    + by rewrite HT.
  - simpl. split; [done|]. split; [apply length_scatter_add|]. split.
    + intros i Hi. by rewrite scatter_add_addends.
    + split.
      * intros i. by apply addends_perm.
      * intros i. rewrite (addends_perm _ _ _ i HP).
        unfold addends. rewrite length_fmap. by apply fan_out_zip.
Qed.

Lemma transfer_rev_accumulates_witness :
  ∃ sv',
    transfer (DataTransfer_init [0; 0] [0; 1] [] [] "rev")
      (mkVec [1%float] ∅) (mkVec [5%float; 7%float] ∅) "rev" true
      = Some (sv', mkVec [5%float; 7%float] ∅) ∧
    vec sv' = [13%float].
Proof.
  destruct (transfer_rev_accumulates [0; 0] [0; 1] [] [] "rev"
              (mkVec [1%float] ∅) (mkVec [5%float; 7%float] ∅) true)
    as (sv' & Heq & _ & Hlen & Hval & _).
  - reflexivity.
  - repeat constructor.
  - repeat constructor.
  - exists sv'. split; [exact Heq|].
    specialize (Hval 0 ltac:(simpl; lia)).
    destruct (vec sv') as [|y [|? ?]]; try discriminate Hlen.
    simpl in Hval. injection Hval as ->. reflexivity.
Defined.

(** The target array after a forward transfer of a plan. *)
Lemma transfer_fwd_array {A} `{!Dtype A, !Inhabited A}
    src tgt vc bc cmode (srcvec tgtvec : VecWrapper A) mode :
  mode ≠ "rev" →
  length src = length tgt →
  Forall (λ k, k < length (vec srcvec)) src →
  Forall (λ k, k < length (vec tgtvec)) tgt →
  NoDup tgt →
  ∃ v, transfer (DataTransfer_init src tgt vc bc cmode) srcvec tgtvec mode true
         = Some (srcvec, set_vec tgtvec v) ∧
       length v = length (vec tgtvec) ∧
       (∀ s t, (s, t) ∈ zip src tgt → v !! t = vec srcvec !! s) ∧
       (∀ j, j ∉ tgt → v !! j = vec tgtvec !! j).
Proof.
  intros Hm Hlen Hs Ht Hnd.
  pose proof (init_expand src tgt vc bc cmode Hlen) as (HS & HT & HL).
  pose proof (init_pairs src tgt vc bc cmode Hlen) as HP.
  simpl in HP.
  set (x := DataTransfer_init src tgt vc bc cmode) in *.
  set (S := expand (src_slice x)) in *. set (T := expand (tgt_slice x)) in *.
  assert (HsS : Forall (λ k, k < length (vec srcvec)) S) by by rewrite HS.
  assert (HtT : Forall (λ k, k < length (vec tgtvec)) T) by by rewrite HT.
  assert (Hfst : (zip T ((λ k, vec srcvec !!! k) <$> S)).*1 = T).
  { apply fst_zip. rewrite length_fmap. lia. }
  exists (scatter_set (vec tgtvec) (zip T ((λ k, vec srcvec !!! k) <$> S))).
  split; [by apply transfer_fwd_expand|].
  split; [apply length_scatter_set|]. split.
  - intros s t Hst.
    assert (Hin : (s, t) ∈ zip S T) by by rewrite HP.
    assert (Hs' : s < length (vec srcvec)).
    { rewrite Forall_forall in HsS. apply HsS.
      apply (elem_of_zip_l _ _ _ _ Hin). }
    assert (Ht' : t < length (vec tgtvec)).
    { rewrite Forall_forall in HtT. apply HtT.
      apply (elem_of_zip_r _ _ _ _ Hin). }
    rewrite (list_lookup_lookup_total_lt _ _ Hs').
    apply scatter_set_lookup_in; [|
      |done].
    + rewrite Hfst. by rewrite HT.
    + rewrite zip_fmap_r_pairs, <- (zip_swap S T), <- list_fmap_compose.
      apply list_elem_of_fmap. by exists (s, t).
  - intros j Hj. apply scatter_set_lookup_notin.
    rewrite Hfst. by rewrite HT.
Qed.

(** C4.  A forward transfer of a plan whose target indices are distinct
    leaves the source vector as it was and gives every target index the
    value its paired source index holds; target positions outside the
    plan keep their values.  In a derivative pass the values passed by
    object are not touched; otherwise every by-object connection has its
    whole value assigned from source to target, the numeric result being
    the same. *)
Theorem transfer_fwd_copies {A} `{!Dtype A, !Inhabited A}
    src tgt vc bc cmode (srcvec tgtvec : VecWrapper A) mode :
  mode ≠ "rev" →
  length src = length tgt →
  Forall (λ k, k < length (vec srcvec)) src →
  Forall (λ k, k < length (vec tgtvec)) tgt →
  NoDup tgt →
  ∃ tv1,
    transfer (DataTransfer_init src tgt vc bc cmode) srcvec tgtvec mode true
      = Some (srcvec, tv1) ∧
    objs tv1 = objs tgtvec ∧
    length (vec tv1) = length (vec tgtvec) ∧
    (∀ s t, (s, t) ∈ zip src tgt → vec tv1 !! t = vec srcvec !! s) ∧
    (∀ j, j ∉ tgt → vec tv1 !! j = vec tgtvec !! j) ∧
    (NoDup bc.*1 →
     (∀ t s, (t, s) ∈ bc →
             is_Some (objs srcvec !! s) ∧ is_Some (objs tgtvec !! t)) →
     ∃ tv2,
       transfer (DataTransfer_init src tgt vc bc cmode) srcvec tgtvec mode false
         = Some (srcvec, tv2) ∧
       vec tv2 = vec tv1 ∧
       (∀ t s, (t, s) ∈ bc → objs tv2 !! t = objs srcvec !! s) ∧
       (∀ n, n ∉ bc.*1 → objs tv2 !! n = objs tgtvec !! n)).
Proof.
  intros Hm Hlen Hs Ht Hnd.
  destruct (transfer_fwd_array src tgt vc bc cmode srcvec tgtvec mode
              Hm Hlen Hs Ht Hnd) as (v & Heq & Hl & Hin & Hout).
  exists (set_vec tgtvec v). repeat (split; [done|]).
  intros Hbc Hok.
  destruct (transfer_byobjs_assigns bc srcvec (set_vec tgtvec v) Hbc Hok)
    as (tv2 & Hby & Hvec & Hbin & Hbout).
  exists tv2. repeat (split; [done|]). split; [|done].
  revert Heq. unfold transfer. rewrite !decide_False by done.
  destruct (getitem (vec srcvec) _) as [rhs|]; [|done]. simpl.
  destruct (setitem (vec tgtvec) _ rhs) as [v'|]; [|done]. simpl.
  intros [= ->].
  assert (Hbcs : byobj_conns (DataTransfer_init src tgt vc bc cmode) = bc).
  { unfold DataTransfer_init. case_decide; by destruct (to_slices _ _). }
  rewrite Hbcs, Hby. done.
Qed.

Lemma transfer_fwd_copies_witness :
  ∃ tv1,
    transfer (DataTransfer_init [2; 0] [0; 1] [] [("b", "a")] "fwd")
      (mkVec [4%Z; 5%Z; 6%Z] {["a" := 7]}) (mkVec [0%Z; 0%Z; 9%Z] {["b" := 1]})
      "fwd" true
      = Some (mkVec [4%Z; 5%Z; 6%Z] {["a" := 7]}, tv1) ∧
    objs tv1 = {["b" := 1]} ∧
    length (vec tv1) = 3 ∧
    (∀ s t, (s, t) ∈ zip [2; 0] [0; 1] → vec tv1 !! t = [4%Z; 5%Z; 6%Z] !! s) ∧
    (∀ j, j ∉ [0; 1] → vec tv1 !! j = [0%Z; 0%Z; 9%Z] !! j) ∧
    (NoDup [("b", "a")].*1 →
     (∀ t s, (t, s) ∈ [("b", "a")] →
             is_Some (({["a" := 7]} : gmap string nat) !! s) ∧
             is_Some (({["b" := 1]} : gmap string nat) !! t)) →
     ∃ tv2,
       transfer (DataTransfer_init [2; 0] [0; 1] [] [("b", "a")] "fwd")
         (mkVec [4%Z; 5%Z; 6%Z] {["a" := 7]}) (mkVec [0%Z; 0%Z; 9%Z] {["b" := 1]})
         "fwd" false
         = Some (mkVec [4%Z; 5%Z; 6%Z] {["a" := 7]}, tv2) ∧
       vec tv2 = vec tv1 ∧
       (∀ t s, (t, s) ∈ [("b", "a")] →
               objs tv2 !! t = ({["a" := 7]} : gmap string nat) !! s) ∧
       (∀ n, n ∉ [("b", "a")].*1 →
             objs tv2 !! n = ({["b" := 1]} : gmap string nat) !! n)).
Proof.
  pose proof (transfer_fwd_copies [2; 0] [0; 1] [] [("b", "a")] "fwd"
                (mkVec [4%Z; 5%Z; 6%Z] {["a" := 7]})
                (mkVec [0%Z; 0%Z; 9%Z] {["b" := 1]}) "fwd") as H.
  simpl in H. apply H.
  - discriminate.
  - reflexivity.
  - repeat constructor.
  - repeat constructor.
  - compute_done.
Defined.




End data_transfer_spec.

(** ** group.py: connection resolution *)

Module connection_facts.
Import numpy util data_transfer group.

Lemma dict_get_setdefault_append d k v k' :
  dict_get (setdefault_append d k v) k' =
  if decide (k = k') then Some (default [] (dict_get d k) ++ [v])
  else dict_get d k'.
Proof.
  induction d as [|[k0 l] d IH]; simpl.
  - repeat case_decide; congruence.
  - destruct (decide (k0 = k)) as [->|Hne]; simpl.
    + repeat case_decide; congruence.
    + rewrite IH. repeat case_decide; congruence.
Qed.

Lemma keys_setdefault_append d k v :
  NoDup d.*1 → NoDup (setdefault_append d k v).*1 ∧
               ∀ k', k' ∈ (setdefault_append d k v).*1 ↔ k' = k ∨ k' ∈ d.*1.
Proof.
  induction d as [|[k0 l] d IH]; csimpl; intros Hnd.
  - split; [apply NoDup_singleton|]. intros k'.
    rewrite list_elem_of_singleton, elem_of_nil. tauto.
  - apply NoDup_cons in Hnd as [Hk0 Hnd].
    destruct (IH Hnd) as [IH1 IH2].
    destruct (decide (k0 = k)) as [->|Hne]; csimpl.
    + split; [by apply NoDup_cons|]. intros k'.
      rewrite elem_of_cons. tauto.
    + split.
      * apply NoDup_cons. split; [|done]. rewrite IH2. tauto.
      * intros k'. rewrite elem_of_cons, IH2, elem_of_cons. tauto.
Qed.

Lemma keys_collect_NoDup acc (d : vardict) :
  NoDup acc.*1 →
  NoDup (foldl (λ acc e, setdefault_append acc (relative_name e.2) e.1) acc d).*1.
Proof.
  revert acc. induction d as [|e d IH]; intros acc Hnd; [done|].
  simpl. apply IH. by apply keys_setdefault_append.
Qed.

Lemma dict_get_collect acc (d : vardict) name :
  dict_get (foldl (λ acc e, setdefault_append acc (relative_name e.2) e.1) acc d)
           name =
  match matching_paths name d with
  | [] => dict_get acc name
  | ps => Some (default [] (dict_get acc name) ++ ps)
  end.
Proof.
  revert acc. induction d as [|[p m] d IH]; intros acc; [done|].
  simpl foldl. rewrite IH. unfold matching_paths.
  rewrite filter_cons. simpl.
  rewrite dict_get_setdefault_append.
  destruct (decide (relative_name m = name)) as [Heq|Hne]; csimpl.
  - subst name. destruct ((filter _ d).*1) as [|q qs]; [done|].
    by rewrite <- app_assoc.
  - done.
Qed.

Lemma dict_get_elem_of {V} (d : list (string * V)) k v :
  NoDup d.*1 → (k, v) ∈ d → dict_get d k = Some v.
Proof.
  induction d as [|[k0 v0] d IH]; csimpl; intros Hnd Hin.
  - by apply elem_of_nil in Hin.
  - apply NoDup_cons in Hnd as [Hk0 Hnd].
    apply elem_of_cons in Hin as [[= -> ->]|Hin].
    + by rewrite decide_True.
    + rewrite decide_False; [by apply IH|].
      intros ->. apply Hk0. apply list_elem_of_fmap. by exists (k, v).
Qed.

Lemma elem_of_dict_get {V} (d : list (string * V)) k v :
  dict_get d k = Some v → (k, v) ∈ d.
Proof.
  induction d as [|[k0 v0] d IH]; simpl; [done|].
  case_decide as Hk; [intros [= ->]; subst; by left|].
  intros H. right. by apply IH.
Qed.

(** Every list collected is the list of all pathnames with that relative
    name. *)
Lemma collect_abs_names_spec (d : vardict) name lst :
  (name, lst) ∈ collect_abs_names d ↔
  lst = matching_paths name d ∧ lst ≠ [].
Proof.
  unfold collect_abs_names.
  pose proof (keys_collect_NoDup [] d (NoDup_nil_2)) as Hnd.
  pose proof (dict_get_collect [] d name) as Hget. simpl in Hget.
  split.
  - intros Hin. apply dict_get_elem_of in Hin; [|done].
    rewrite Hget in Hin. destruct (matching_paths name d); [done|].
    by injection Hin as <-.
  - intros [-> Hne]. apply elem_of_dict_get. rewrite Hget.
    by destruct (matching_paths name d).
Qed.

Lemma filter_two_positions {A} (P : A → Prop) `{∀ x, Decision (P x)}
    (l : list A) i j x y :
  i < j → l !! i = Some x → l !! j = Some y → P x → P y →
  2 ≤ length (filter P l).
Proof.
  intros Hij Hi Hj Hx Hy.
  rewrite <- (take_drop_middle l j y Hj), filter_app, filter_cons.
  rewrite decide_True by done. rewrite length_app, length_cons.
  assert (Hin : x ∈ filter P (take j l)).
  { apply list_elem_of_filter. split; [done|].
    apply list_elem_of_lookup. exists i. by rewrite lookup_take_lt. }
  destruct (filter P (take j l)); [by apply elem_of_nil in Hin|].
  simpl. lia.
Qed.

End connection_facts.

Module connection_spec.
Import numpy util data_transfer group examples connection_facts.

(** C6.  If two entries of the unknowns dictionary carry the same relative
    name, resolving the implicit connections raises: no connection map is
    returned at all, and the error carries a relative name together with
    the full list of the output paths that claim it, at least two. *)
Theorem ambiguous_promotion_raises (pd ud : vardict) i j e1 e2 :
  i ≠ j → ud !! i = Some e1 → ud !! j = Some e2 →
  relative_name e1.2 = relative_name e2.2 →
  ∃ name lst,
    _get_implicit_connections pd ud = inl (PromotedNameMatchesMultiple name lst) ∧
    get_absvarpathnames name ud "unknowns" = inr lst ∧
    2 ≤ length lst.
Proof.
  intros Hij Hi Hj Hrel.
  set (n0 := relative_name e1.2).
  assert (Hlen : 2 ≤ length (matching_paths n0 ud)).
  { unfold matching_paths. rewrite length_fmap.
    destruct (decide (i < j)).
    - by apply (filter_two_positions _ ud i j e1 e2).
    - apply (filter_two_positions _ ud j i e2 e1); [lia|done..]. }
  assert (Hin : (n0, matching_paths n0 ud) ∈ collect_abs_names ud).
  { apply collect_abs_names_spec. split; [done|].
    intros Hnil. rewrite Hnil in Hlen. simpl in Hlen. lia. }
  unfold _get_implicit_connections.
  destruct (list_find _ (collect_abs_names ud)) as [[k [name lst]]|] eqn:Hfind.
  - apply list_find_Some in Hfind as (Hk & HP & _). simpl in HP.
    exists name, lst. split; [done|].
    assert (Hel : (name, lst) ∈ collect_abs_names ud).
    { apply list_elem_of_lookup. by exists k. }
    apply collect_abs_names_spec in Hel as [-> Hne].
    split; [|lia]. unfold get_absvarpathnames.
    by destruct (matching_paths name ud).
  - apply list_find_None in Hfind. rewrite Forall_forall in Hfind.
    specialize (Hfind _ Hin). simpl in Hfind. lia.
Qed.

Lemma ambiguous_promotion_raises_witness :
  ∃ name lst,
    _get_implicit_connections
      [("c:x", mkMeta "x" true)]
      [("a:x", mkMeta "x" true); ("b:x", mkMeta "x" true)]
      = inl (PromotedNameMatchesMultiple name lst) ∧
    get_absvarpathnames name
      [("a:x", mkMeta "x" true); ("b:x", mkMeta "x" true)] "unknowns"
      = inr lst ∧
    2 ≤ length lst.
Proof.
  apply (ambiguous_promotion_raises
           [("c:x", mkMeta "x" true)]
           [("a:x", mkMeta "x" true); ("b:x", mkMeta "x" true)]
           0 1 ("a:x", mkMeta "x" true) ("b:x", mkMeta "x" true)).
  - lia.
  - reflexivity.
  - reflexivity.
  - reflexivity.
Defined.

Lemma lookup_foldl_insert (tgts : list string) (s : string)
    (conns : gmap string string) t :
  foldl (λ c p, <[p := s]> c) conns tgts !! t =
  if decide (t ∈ tgts) then Some s else conns !! t.
Proof.
  revert conns. induction tgts as [|p tgts IH]; intros conns.
  - case_decide as H; [by apply elem_of_nil in H|done].
  - simpl foldl. rewrite IH.
    destruct (decide (t ∈ tgts)) as [Hin|Hnin].
    + case_decide as H; [done|]. exfalso. apply H. by right.
    + destruct (decide (t = p)) as [->|Hne].
      * case_decide as H; [apply lookup_insert_eq|].
        exfalso. apply H. by left.
      * case_decide as H; [|by apply lookup_insert_ne].
        apply elem_of_cons in H. tauto.
Qed.

Lemma no_subgroups_update (subs : list (string * System))
    (rec : System → result (gmap string string)) connections :
  Forall (λ e, is_group e.2 = false) subs →
  (fix update (l : list (string * System)) (connections : gmap string string)
     : result (gmap string string) :=
     match l with
     | [] => inr connections
     | (_, sub) :: rest =>
         if is_group sub then
           bind_result (rec sub) (λ c, update rest (c ∪ connections))
         else update rest connections
     end) subs connections = inr connections.
Proof.
  induction 1 as [|[n sub] subs Hsub _ IH]; [done|].
  simpl in Hsub. by rewrite Hsub.
Qed.

(** C7, as the code has it.  Resolving one explicit link maps every target
    path whose relative name equals the declared target to the first
    source path, in the order of the unknowns dictionary, whose relative
    name equals the declared source, and changes no other entry.  If no
    unknown carries the source name the resolution raises for that name,
    and otherwise if no parameter carries the target name it raises for
    that one.  A group without subgroups resolves its declared links in
    this way, one after the other, starting from the empty map. *)
Theorem explicit_link_resolution (pd ud : vardict)
    (conns : gmap string string) tgt src :
  (matching_paths src ud = [] →
   connect_explicit pd ud conns tgt src = inl (NotFoundIn src "unknowns")) ∧
  (matching_paths src ud ≠ [] → matching_paths tgt pd = [] →
   connect_explicit pd ud conns tgt src = inl (NotFoundIn tgt "params")) ∧
  (∀ s0 srcs, matching_paths src ud = s0 :: srcs →
     matching_paths tgt pd ≠ [] →
     ∃ c, connect_explicit pd ud conns tgt src = inr c ∧
          (∀ t, t ∈ matching_paths tgt pd → c !! t = Some s0) ∧
          (∀ t, t ∉ matching_paths tgt pd → c !! t = conns !! t)) ∧
  (∀ g subs locals,
     Forall (λ e, is_group e.2 = false) subs →
     _get_explicit_connections (Group g subs locals) =
     connect_all_explicit (_params_dict g) (_unknowns_dict g) ∅ (_src g)).
Proof.
  unfold connect_explicit, get_absvarpathnames.
  split; [|split; [|split]].
  - by intros ->.
  - intros Hs ->. by destruct (matching_paths src ud).
  - intros s0 srcs -> Ht.
    exists (foldl (λ c p, <[p := s0]> c) conns (matching_paths tgt pd)).
    split; [by destruct (matching_paths tgt pd)|]. split.
    + intros t Hin. rewrite lookup_foldl_insert. by rewrite decide_True.
    + intros t Hnin. rewrite lookup_foldl_insert. by rewrite decide_False.
  - intros g subs locals Hsubs. simpl.
    by rewrite no_subgroups_update.
Qed.

(** C7 as stated fails where two unknowns carry the declared source name:
    the target is connected to the first of them only, and no entry is
    produced for the pair with the second. *)
Lemma explicit_link_resolution_counterexample :
  ∃ c, _get_explicit_connections two_sources = inr c ∧
       "b:x" ∈ matching_paths "x"
                 [("a:x", mkMeta "x" true); ("b:x", mkMeta "x" true)] ∧
       "c:y" ∈ matching_paths "y" [("c:y", mkMeta "y" true)] ∧
       c !! "c:y" = Some "a:x" ∧
       c !! "c:y" ≠ Some "b:x".
Proof.
  eexists. split; [reflexivity|].
  split; [compute_done|]. split; [compute_done|].
  split; [by vm_compute|]. by vm_compute.
Qed.

End connection_spec.


(** ** Vector wrappers over shared buffers *)

Module view_facts.
Import numpy util data_transfer group numpy_facts connection_facts.

Lemma length_read_view (buf : ndarray) w :
  window_wf buf w → length (read_view buf w) = size w.
Proof.
  unfold window_wf, read_view. intros H.
  rewrite length_take, length_drop. lia.
Qed.

Lemma lookup_read_view (buf : ndarray) w k :
  k < size w → read_view buf w !! k = buf !! (offset w + k).
Proof.
  intros H. unfold read_view. by rewrite lookup_take_lt, lookup_drop.
Qed.

Lemma length_write_view (buf new : ndarray) w :
  window_wf buf w → length new = size w →
  length (write_view buf w new) = length buf.
Proof.
  unfold window_wf, write_view. intros H Hn.
  rewrite !length_app, length_take, length_drop. lia.
Qed.

Lemma lookup_write_view_in (buf new : ndarray) w k :
  window_wf buf w → length new = size w → k < size w →
  write_view buf w new !! (offset w + k) = new !! k.
Proof.
  unfold window_wf, write_view. intros H Hn Hk.
  rewrite lookup_app_r by (rewrite length_take; lia).
  rewrite length_take.
  replace (offset w + k - offset w `min` length buf) with k by lia.
  apply lookup_app_l. lia.
Qed.

Lemma lookup_write_view_out (buf new : ndarray) w j :
  window_wf buf w → length new = size w →
  ¬ (offset w ≤ j < offset w + size w) →
  write_view buf w new !! j = buf !! j.
Proof.
  unfold window_wf, write_view. intros H Hn Hj.
  destruct (decide (j < offset w)) as [Hlt|Hge].
  - rewrite lookup_app_l by (rewrite length_take; lia).
    by apply lookup_take_lt.
  - rewrite lookup_app_r by (rewrite length_take; lia).
    rewrite length_take.
    rewrite lookup_app_r by lia.
    rewrite lookup_drop. f_equal. lia.
Qed.

Lemma length_negate_vec (buf : ndarray) w :
  window_wf buf w → length (negate_vec buf w) = length buf.
Proof.
  intros H. unfold negate_vec. apply length_write_view; [done|].
  by rewrite length_fmap, length_read_view.
Qed.

Lemma lookup_negate_vec_in (buf : ndarray) w k :
  window_wf buf w → k < size w →
  negate_vec buf w !! (offset w + k) =
  Some (Z.opp (buf !!! (offset w + k))).
Proof.
  intros H Hk. unfold negate_vec.
  rewrite lookup_write_view_in; [|done| |done].
  - rewrite list_lookup_fmap, lookup_read_view by done.
    assert (Hlt : offset w + k < length buf) by (unfold window_wf in H; lia).
    rewrite (list_lookup_lookup_total_lt _ _ Hlt). simpl. f_equal. lia.
  - by rewrite length_fmap, length_read_view.
Qed.

Lemma lookup_negate_vec_out (buf : ndarray) w j :
  window_wf buf w → ¬ (offset w ≤ j < offset w + size w) →
  negate_vec buf w !! j = buf !! j.
Proof.
  intros H Hj. unfold negate_vec. apply lookup_write_view_out; [done| |done].
  by rewrite length_fmap, length_read_view.
Qed.

Lemma zsum_filter_zip_seq (rhs : list Z) s k :
  Zsum (snd <$> filter (λ kv, kv.1 = k) (zip (seq s (length rhs)) rhs)) =
  if decide (s ≤ k < s + length rhs) then rhs !!! (k - s) else 0%Z.
Proof.
  revert s. induction rhs as [|x rhs IH]; intros s.
  - simpl. case_decide; [lia|done].
  - simpl length. simpl seq. simpl zip. rewrite filter_cons. simpl.
    destruct (decide (s = k)) as [->|Hne].
    + rewrite fmap_cons. unfold Zsum. simpl foldr. fold (Zsum (snd <$>
        filter (λ kv : nat * Z, kv.1 = k) (zip (seq (S k) (length rhs)) rhs))).
      rewrite IH. rewrite decide_False by lia. rewrite decide_True by lia.
      replace (k - k) with 0 by lia. simpl. lia.
    + rewrite IH. destruct (decide (S s ≤ k < S s + length rhs)) as [Hin|Hout].
      * rewrite decide_True by lia.
        replace (k - s) with (S (k - S s)) by lia. done.
      * rewrite decide_False by lia. done.
Qed.

Lemma iadd_slice_lookup (win rhs : ndarray) s e :
  s ≤ e → e ≤ length win → length rhs = e - s →
  ∃ new, iadd_slice win s e rhs = Some new ∧
         length new = length win ∧
         ∀ k, new !! k =
              if decide (s ≤ k < e)
              then (λ y, Z.add y (rhs !!! (k - s))) <$> win !! k
              else win !! k.
Proof.
  intros Hse He Hr. unfold iadd_slice. simpl positions.
  replace (e `min` length win - s) with (length rhs) by lia.
  simpl. rewrite length_seq. rewrite broadcast_to_same by done. simpl.
  eexists. split; [done|]. split; [apply length_scatter_add|].
  intros k. rewrite scatter_add_lookup, zsum_filter_zip_seq.
  destruct (decide (s ≤ k < s + length rhs)) as [Hin|Hout].
  - by rewrite decide_True by lia.
  - rewrite decide_False by lia.
    destruct (win !! k); simpl; [|done]. f_equal. lia.
Qed.

Lemma flat_spec (buf : ndarray) w var s e :
  dict_get (slices w) var = Some (s, e) → window_wf buf w →
  s ≤ e → e ≤ size w →
  ∃ rhs, flat buf w var = Some rhs ∧ length rhs = e - s ∧
         ∀ i, i < e - s → rhs !!! i = buf !!! (offset w + (s + i)).
Proof.
  intros Hget Hw Hse He. unfold flat. rewrite Hget. simpl.
  pose proof (length_read_view buf w Hw) as Hlen.
  rewrite getitem_expand.
  - eexists. split; [done|]. split.
    + simpl. by rewrite length_fmap, length_seq.
    + intros i Hi. simpl.
      rewrite list_lookup_total_alt, list_lookup_fmap, lookup_seq_lt by done.
      simpl. unfold read_view. rewrite lookup_total_take_lt by lia.
      by rewrite lookup_total_drop.
  - simpl. apply Forall_forall. intros k Hk. apply elem_of_seq in Hk. lia.
Qed.

Lemma vw_iadd_spec (buf rhs : ndarray) w var s e :
  dict_get (slices w) var = Some (s, e) → window_wf buf w →
  s ≤ e → e ≤ size w → length rhs = e - s →
  ∃ buf', vw_iadd buf w var rhs = Some buf' ∧
          length buf' = length buf ∧
          (∀ k, s ≤ k < e →
                buf' !! (offset w + k) =
                Some (Z.add (buf !!! (offset w + k)) (rhs !!! (k - s)))) ∧
          (∀ j, ¬ (offset w + s ≤ j < offset w + e) → buf' !! j = buf !! j).
Proof.
  intros Hget Hw Hse He Hr. unfold vw_iadd. rewrite Hget. simpl.
  pose proof (length_read_view buf w Hw) as Hlen.
  destruct (iadd_slice_lookup (read_view buf w) rhs s e) as (new & -> & Hn & Hk);
    [lia..|].
  simpl. rewrite Hlen in Hn.
  eexists. split; [done|]. split; [by apply length_write_view|]. split.
  - intros k Hk'. rewrite lookup_write_view_in by (done || lia).
    rewrite Hk, decide_True by done.
    rewrite lookup_read_view by lia.
    assert (Hlt : offset w + k < length buf) by (unfold window_wf in Hw; lia).
    by rewrite (list_lookup_lookup_total_lt _ _ Hlt).
  - intros j Hj.
    destruct (decide (offset w ≤ j < offset w + size w)) as [Hin|Hout].
    + replace j with (offset w + (j - offset w)) by lia.
      rewrite lookup_write_view_in by (done || lia).
      rewrite Hk, decide_False by lia.
      apply lookup_read_view. lia.
    + by apply lookup_write_view_out.
Qed.

Lemma covered_bound n sl k :
  Forall (λ x : string * (nat * nat), x.2.1 ≤ x.2.2 ∧ x.2.2 ≤ n) sl →
  covered sl k → k < n.
Proof.
  intros Hb (x & Hx & Hk). rewrite Forall_forall in Hb.
  specialize (Hb x Hx). lia.
Qed.

(** What the loop [for var in vars: dst[var] += src.flat[var]] leaves in
    the destination buffer. *)
Lemma iadd_flat_spec wdst wsrc (src : ndarray) sl items :
  slices wdst = sl → slices wsrc = sl → size wsrc = size wdst →
  NoDup sl.*1 → items ⊆ sl →
  Forall (λ x, x.2.1 ≤ x.2.2 ∧ x.2.2 ≤ size wdst) items →
  disjoint_slices items →
  window_wf src wsrc →
  ∀ dst : ndarray, window_wf dst wdst →
    ∃ dst', iadd_flat items.*1 wdst wsrc dst src = Some dst' ∧
            length dst' = length dst ∧
            (∀ k, covered items k →
                  dst' !! (offset wdst + k) =
                  Some (Z.add (dst !!! (offset wdst + k))
                              (src !!! (offset wsrc + k)))) ∧
            (∀ j, (∀ k, j = offset wdst + k → ¬ covered items k) →
                  dst' !! j = dst !! j).
Proof.
  intros Hd Hs Hsz Hnd Hsub Hb Hdis Hws.
  induction items as [|[var [s e]] items IH]; intros dst Hwd.
  - exists dst. split; [done|]. split; [done|]. split; [|done].
    intros k (x & Hx & _). by apply elem_of_nil in Hx.
  - apply Forall_cons in Hb as [[Hse He] Hb]. simpl in Hse, He.
    destruct Hdis as [Hhd Hdis]. simpl in Hhd.
    assert (Hget : dict_get sl var = Some (s, e)).
    { apply dict_get_elem_of; [done|]. apply Hsub. by left. }
    destruct (flat_spec src wsrc var s e) as (rhs & Hfl & Hrl & Hrv);
      [by rewrite Hs|done|done|lia|].
    destruct (vw_iadd_spec dst rhs wdst var s e)
      as (dst1 & Hadd & Hl1 & Hin1 & Hout1); [by rewrite Hd|done..|].
    destruct IH with (dst := dst1) as (dst' & Hrest & Hl & Hin & Hout).
    { intros x Hx. apply Hsub. by right. }
    { done. }
    { done. }
    { unfold window_wf in *. by rewrite Hl1. }
    exists dst'. csimpl. rewrite Hfl. simpl. rewrite Hadd. simpl.
    split; [done|]. split; [by rewrite Hl, Hl1|]. split.
    + intros k (x & Hx & Hk). apply elem_of_cons in Hx as [->|Hx].
      * simpl in Hk. rewrite Hout.
        -- rewrite Hin1 by done. do 2 f_equal.
           rewrite Hrv by lia. f_equal. lia.
        -- intros k' Hk' (y & Hy & Hky).
           assert (k' = k) as -> by lia.
           rewrite Forall_forall in Hhd. specialize (Hhd y Hy). simpl in Hhd.
           lia.
      * rewrite Hin by by exists x.
        f_equal. f_equal.
        assert (Hlt : offset wdst + k < length dst).
        { rewrite Forall_forall in Hb. specialize (Hb x Hx).
          unfold window_wf in Hwd. lia. }
        assert (Hlt1 : offset wdst + k < length dst1) by by rewrite Hl1.
        apply (inj Some).
        rewrite <- (list_lookup_lookup_total_lt _ _ Hlt).
        rewrite <- (list_lookup_lookup_total_lt _ _ Hlt1).
        apply Hout1.
        rewrite Forall_forall in Hhd. specialize (Hhd x Hx). simpl in Hhd.
        lia.
    + intros j Hj. rewrite Hout.
      * apply Hout1. intros Hr.
        apply (Hj (j - offset wdst)); [lia|].
        exists (var, (s, e)). split; [by left|]. simpl. lia.
      * intros k Hk (x & Hx & Hkx). apply (Hj k Hk).
        exists x. split; [by right|done].
Qed.

End view_facts.

(** ** group.py: the linear operator *)

Module apply_linear_spec.
Import numpy util data_transfer group examples.
Import numpy_facts connection_facts view_facts.

Lemma negate_vec_involutive (buf : ndarray) w :
  window_wf buf w → negate_vec (negate_vec buf w) w = buf.
Proof.
  intros Hw. apply list_eq. intros j.
  assert (Hw' : window_wf (negate_vec buf w) w).
  { unfold window_wf in *. by rewrite length_negate_vec. }
  destruct (decide (offset w ≤ j < offset w + size w)) as [Hin|Hout].
  - replace j with (offset w + (j - offset w)) by lia.
    rewrite lookup_negate_vec_in by (done || lia).
    assert (Hlt : offset w + (j - offset w) < length buf)
      by (unfold window_wf in Hw; lia).
    assert (Hk : j - offset w < size w) by lia.
    pose proof (lookup_negate_vec_in buf w (j - offset w) Hw Hk) as H1.
    apply list_lookup_total_correct in H1. rewrite H1.
    rewrite (list_lookup_lookup_total_lt _ _ Hlt). f_equal. lia.
  - rewrite !lookup_negate_vec_out by done. done.
Qed.

Lemma apply_linear_group_fwd g subs locals v st0 :
  g_active g = true →
  apply_linear (Group g subs locals) v "fwd" st0 =
  r0 ← full_scatter g "fwd" st0;
  r1 ← apply_linear_children apply_linear g "fwd" locals r0.1;
  Some (r1.1, r0.2 ++ r1.2).
Proof.
  intros Ha. simpl. rewrite Ha. simpl.
  destruct (full_scatter g "fwd" st0) as [r0|]; [|done]. simpl.
  destruct (apply_linear_children _ _ _ _ _) as [r1|]; [|done]. simpl.
  by rewrite app_nil_r.
Qed.

Lemma apply_linear_group_rev g subs locals v st0 :
  g_active g = true →
  apply_linear (Group g subs locals) v "rev" st0 =
  r1 ← apply_linear_children apply_linear g "rev" locals st0;
  r2 ← full_scatter g "rev" r1.1;
  Some (r2.1, r1.2 ++ r2.2).
Proof.
  intros Ha. simpl. rewrite Ha. simpl.
  destruct (apply_linear_children _ _ _ _ _) as [r1|]; [|done]. simpl.
  by destruct (full_scatter g "rev" r1.1) as [r2|].
Qed.

(** In either mode the children loop calls every local child once, in the
    order of the local subsystems. *)
Lemma apply_linear_children_events g mode locals s s' evs :
  mode = "fwd" ∨ mode = "rev" →
  apply_linear_children apply_linear g mode locals s = Some (s', evs) →
  Forall2 (λ ev child, ∃ inner, ev = ApplyLinear (sys_name child.2) mode inner)
          evs locals.
Proof.
  intros Hm. revert s s' evs.
  induction locals as [|[n system] locals IH]; intros s s' evs; simpl.
  - intros [= <- <-]. constructor.
  - destruct (apply_linear_child apply_linear g mode system s)
      as [[s1 ev1]|] eqn:Hc; [|done]. simpl.
    destruct (apply_linear_children apply_linear g mode locals s1)
      as [[s2 ev2]|] eqn:Hr; [|done]. simpl.
    intros [= <- <-].
    assert (Hev : ∃ inner, ev1 = [ApplyLinear (sys_name system) mode inner]).
    { unfold apply_linear_child in Hc.
      destruct (dict_get (_views g) (sys_name system)) as [view|]; [|done].
      simpl in Hc. destruct system as [c|c|g' subs' locals'].
      - destruct Hm as [->| ->].
        + rewrite decide_True in Hc by done.
          destruct (c_apply_linear c view "fwd" s); [|done]. simpl in Hc.
          destruct (add_dunknowns_to_dresids _ _); [|done]. simpl in Hc.
          injection Hc as <- <-. by eexists.
        + rewrite decide_False, decide_True in Hc by done.
          destruct (c_apply_linear c view "rev" _); [|done]. simpl in Hc.
          destruct (add_dresids_to_dunknowns _ _); [|done]. simpl in Hc.
          injection Hc as <- <-. by eexists.
      - destruct (apply_linear (ParamComp c) view mode s); [|done].
        simpl in Hc. injection Hc as <- <-. by eexists.
      - destruct (apply_linear (Group g' subs' locals') view mode s); [|done].
        simpl in Hc. injection Hc as <- <-. by eexists. }
    destruct Hev as [inner ->]. simpl.
    constructor; [by eexists|]. by eapply IH.
Qed.


Lemma view_B_wf dp du dr :
  length du = 2 → length dr = 2 →
  deriv_view_wf (chain_store dp du dr) view_B.
Proof.
  intros Hu Hr. unfold deriv_view_wf, window_wf, slices_wf. simpl.
  repeat split; try lia.
  - apply NoDup_singleton.
  - repeat constructor.
  - constructor.
Qed.




End apply_linear_spec.

(** ** group.py: linear solve, Jacobian assembly and item access *)

Module group_spec.
Import numpy util data_transfer group examples.

(** C8.  On an active group, when the norm of the right-hand side is below
    the tolerance [1e-15], [solve_linear] sets the solution array to zeros
    and returns it at once: no call of the linear solver is recorded, the
    buffers and the shared store are untouched, and the outcome is the same
    whatever solver (or any other attribute) the group carries. *)
Theorem solve_linear_zero_rhs norm g rhs mode st :
  g_active g = true →
  PrimFloat.ltb (norm rhs) tolerance = true →
  let zeros := replicate (length (sol_vec_array st.2)) 0%Z in
  solve_linear norm g rhs mode st
    = Some (Some zeros,
            (st.1, mkLinear zeros (rhs_vec_array st.2) (rhs_buf st.2)
                            (sol_buf st.2)),
            []) ∧
  ∀ g', g_active g' = true →
        solve_linear norm g' rhs mode st = solve_linear norm g rhs mode st.
Proof.
  intros Ha Hn zeros. split.
  - unfold solve_linear. by rewrite Ha, Hn.
  - intros g' Ha'. unfold solve_linear. by rewrite Ha, Ha', Hn.
Qed.

Lemma solve_linear_zero_rhs_witness :
  solve_linear (λ _, 0%float) (chain_attrs true) [0%Z; 0%Z] "auto"
    (chain_store [0%Z] [0%Z; 0%Z] [0%Z; 0%Z], chain_linear)
    = Some (Some [0%Z; 0%Z],
            (chain_store [0%Z] [0%Z; 0%Z] [0%Z; 0%Z],
             mkLinear [0%Z; 0%Z] [0%Z; 0%Z] [1%Z; 1%Z] [2%Z; 2%Z]),
            []).
Proof.
  destruct (solve_linear_zero_rhs (λ _, 0%float) (chain_attrs true)
              [0%Z; 0%Z] "auto"
              (chain_store [0%Z] [0%Z; 0%Z] [0%Z; 0%Z], chain_linear))
    as [H _].
  - reflexivity.
  - reflexivity.
  - exact H.
Defined.



(** C10.  On a group that is not active, retrieving a variable (a tuple of
    a name and a vector, or a name that does not lead to a subsystem)
    returns [None], whether or not setup has run, and setting a variable
    returns at once with the store as it was.  An active group without a
    variable manager raises the setup error for the same keys. *)
Theorem inactive_group_access g subs locals st :
  g_active g = false →
  (∀ name vector,
     __getitem__ (Group g subs locals) st (KTuple name vector) = inr INone) ∧
  (∀ name,
     find_subsystem (Group g subs locals) (split_colon name) = None →
     __getitem__ (Group g subs locals) st (KName name) = inr INone) ∧
  (∀ name val, __setitem__ (Group g subs locals) st name val = Some st) ∧
  (∀ g' name vector,
     g_active g' = true → _varmanager g' = None →
     __getitem__ (Group g' subs locals) st (KTuple name vector)
       = inl SetupNotCalled) ∧
  (∀ g' name,
     g_active g' = true → _varmanager g' = None →
     find_subsystem (Group g' subs locals) (split_colon name) = None →
     __getitem__ (Group g' subs locals) st (KName name) = inl SetupNotCalled).
Proof.
  intros Ha. split; [|split; [|split; [|split]]].
  - intros name vector. cbn [__getitem__]. by rewrite Ha.
  - intros name Hfind. cbn [__getitem__]. by rewrite Hfind, Ha.
  - intros name val. unfold __setitem__. by rewrite Ha.
  - intros g' name vector Ha' Hvm. cbn [__getitem__]. by rewrite Ha', Hvm.
  - intros g' name Ha' Hvm Hfind. cbn [__getitem__].
    by rewrite Hfind, Ha', Hvm.
Qed.

Lemma inactive_group_access_witness :
  __getitem__ (chain false) (chain_store [0%Z] [1%Z; 7%Z] [0%Z; 0%Z])
    (KTuple "B:y" "dunknowns") = inr INone ∧
  __getitem__ (chain false) (chain_store [0%Z] [1%Z; 7%Z] [0%Z; 0%Z])
    (KName "B:y") = inr INone ∧
  __setitem__ (chain false) (chain_store [0%Z] [1%Z; 7%Z] [0%Z; 0%Z])
    "B:y" (VArray [3%Z]) = Some (chain_store [0%Z] [1%Z; 7%Z] [0%Z; 0%Z]).
Proof.
  destruct (inactive_group_access (chain_attrs false)
              [("A", ParamComp comp_A); ("B", Component comp_B)]
              [("A", ParamComp comp_A); ("B", Component comp_B)]
              (chain_store [0%Z] [1%Z; 7%Z] [0%Z; 0%Z]))
    as (Htuple & Hname & Hset & _).
  - reflexivity.
  - split; [apply Htuple|]. split; [|apply Hset].
    apply Hname. reflexivity.
Defined.

End group_spec.

(** ** group.py: building the tree *)

Module tree_facts.
Import numpy util data_transfer group group_tree connection_facts.

Lemma dict_get_dict_set_eq {V} (d : list (string * V)) k v :
  dict_get (dict_set d k v) k = Some v.
Proof.
  induction d as [|[k' v'] d IH]; simpl.
  - by rewrite decide_True.
  - destruct (decide (k' = k)) as [->|Hne]; simpl.
    + by rewrite decide_True.
    + by rewrite decide_False.
Qed.

Lemma dict_get_dict_set_ne {V} (d : list (string * V)) k v k' :
  k ≠ k' → dict_get (dict_set d k v) k' = dict_get d k'.
Proof.
  intros Hne. induction d as [|[k0 v0] d IH]; simpl.
  - by rewrite decide_False.
  - destruct (decide (k0 = k)) as [->|Hne0]; simpl.
    + by rewrite !decide_False.
    + by rewrite IH.
Qed.

Lemma elem_of_keys_dict_set {V} (d : list (string * V)) k v k' :
  k' ∈ (dict_set d k v).*1 ↔ k' = k ∨ k' ∈ d.*1.
Proof.
  induction d as [|[k0 v0] d IH]; csimpl.
  - rewrite list_elem_of_singleton, elem_of_nil. tauto.
  - destruct (decide (k0 = k)) as [->|Hne]; csimpl.
    + rewrite elem_of_cons. tauto.
    + rewrite !elem_of_cons, IH. tauto.
Qed.

Lemma NoDup_keys_dict_set {V} (d : list (string * V)) k v :
  NoDup d.*1 → NoDup (dict_set d k v).*1.
Proof.
  induction d as [|[k0 v0] d IH]; csimpl; intros Hnd.
  - apply NoDup_singleton.
  - apply NoDup_cons in Hnd as [Hk0 Hnd].
    destruct (decide (k0 = k)) as [->|Hne]; csimpl.
    + by apply NoDup_cons.
    + apply NoDup_cons. split; [|by apply IH].
      rewrite elem_of_keys_dict_set. tauto.
Qed.

Lemma elem_of_dict_set {V} (d : list (string * V)) k v :
  (k, v) ∈ dict_set d k v.
Proof. apply elem_of_dict_get, dict_get_dict_set_eq. Qed.

Lemma length_dict_set_old {V} (d : list (string * V)) k v :
  k ∈ d.*1 → length (dict_set d k v) = length d.
Proof.
  induction d as [|[k0 v0] d IH]; csimpl; intros Hin.
  - by apply elem_of_nil in Hin.
  - destruct (decide (k0 = k)) as [->|Hne]; simpl; [done|].
    apply elem_of_cons in Hin as [->|Hin]; [done|]. by rewrite IH.
Qed.

End tree_facts.

Module tree_spec.
Import numpy util data_transfer group group_tree examples.
Import connection_facts connection_spec tree_facts.

Lemma split_colon_no_colon name :
  has_colon name = false → split_colon name = [name].
Proof.
  induction name as [|c rest IH]; simpl; [done|].
  destruct (Ascii.eqb c ":"%char); simpl; [done|].
  intros H. by rewrite (IH H).
Qed.

Lemma split_colon_once_no_colon name :
  has_colon name = false → split_colon_once name = [name].
Proof.
  induction name as [|c rest IH]; simpl; [done|].
  destruct (Ascii.eqb c ":"%char); simpl; [done|].
  intros H. by rewrite (IH H).
Qed.

(** X1.  After [add(name, system)] of a system that the group does not hold
    yet, the subsystem is found under its name.  The system stored and
    returned carries the new name; item access with that name returns it
    whatever the state of the group (active or not, set up or not); the
    other subsystems and the local subsystems are as before. *)
Theorem add_then_getitem self name system self' system' st :
  ¬ holds self system →
  add self name system = Some (self', system') →
  has_colon name = false →
  __getitem__ self' st (KName name) = inr (ISystem system') ∧
  system' = set_name system name ∧
  sys_name system' = name ∧
  (∀ other, other ≠ name →
     dict_get (subsystems self' false) other =
     dict_get (subsystems self false) other) ∧
  subsystems self' true = subsystems self true.
Proof.
  intros _ Hadd Hname. destruct self as [c|c|g subs locals]; try done.
  simpl in Hadd. injection Hadd as <- <-.
  split; [|split; [done|split; [by destruct system|split; [|done]]]].
  - cbn [__getitem__]. rewrite (split_colon_no_colon name Hname).
    cbn [find_subsystem subsystems]. by rewrite dict_get_dict_set_eq.
  - intros other Hne. simpl. by apply dict_get_dict_set_ne.
Qed.

Lemma chain_fresh : ¬ holds (chain false) (Component comp_A).
Proof.
  assert (Hleaf : ∀ k c, (k, c) ∈ [("A", ParamComp comp_A);
                                    ("B", Component comp_B)] →
                         ¬ holds c (Component comp_A)).
  { intros k c Hin Hc.
    apply elem_of_cons in Hin as [[= -> ->]|Hin]; [by inversion Hc|].
    apply elem_of_cons in Hin as [[= -> ->]|Hin]; [by inversion Hc|].
    by apply elem_of_nil in Hin. }
  intros H. inversion H as [|? ? ? k c ? Hin Hc|? ? ? k c ? Hin Hc]; subst;
    by apply (Hleaf k c).
Qed.

Lemma add_then_getitem_witness :
  __getitem__
    (Group (chain_attrs false)
       [("A", ParamComp comp_A); ("B", set_name (Component comp_A) "B")]
       [("A", ParamComp comp_A); ("B", Component comp_B)])
    (chain_store [] [] []) (KName "B")
  = inr (ISystem (set_name (Component comp_A) "B")).
Proof.
  destruct (add_then_getitem (chain false) "B" (Component comp_A)
              (Group (chain_attrs false)
                 [("A", ParamComp comp_A); ("B", set_name (Component comp_A) "B")]
                 [("A", ParamComp comp_A); ("B", Component comp_B)])
              (set_name (Component comp_A) "B") (chain_store [] [] []))
    as [H _].
  - exact chain_fresh.
  - reflexivity.
  - reflexivity.
  - exact H.
Defined.

End tree_spec.

(** ** group.py: what the resolved connections contain *)

Module connection_more.
Import numpy util data_transfer group group_tree examples.
Import connection_facts connection_spec tree_facts.

Lemma elem_of_matching_paths name (d : vardict) p :
  p ∈ matching_paths name d ↔ ∃ m, (p, m) ∈ d ∧ relative_name m = name.
Proof.
  unfold matching_paths. rewrite list_elem_of_fmap. split.
  - intros ([p' m] & -> & Hin). apply list_elem_of_filter in Hin as [Hr Hin].
    by exists m.
  - intros (m & Hin & Hr). exists (p, m). split; [done|].
    by apply list_elem_of_filter.
Qed.

Lemma matching_paths_unique (d : vardict) p t t' :
  NoDup d.*1 → p ∈ matching_paths t d → p ∈ matching_paths t' d → t = t'.
Proof.
  intros Hnd (m & Hm & <-)%elem_of_matching_paths
             (m' & Hm' & <-)%elem_of_matching_paths.
  apply (dict_get_elem_of _ _ _ Hnd) in Hm, Hm'. congruence.
Qed.

Lemma connect_explicit_inr pd ud c0 t s c1 :
  connect_explicit pd ud c0 t s = inr c1 →
  ∃ s0, head (matching_paths s ud) = Some s0 ∧
        matching_paths t pd ≠ [] ∧
        c1 = foldl (λ c p, <[p := s0]> c) c0 (matching_paths t pd).
Proof.
  unfold connect_explicit, get_absvarpathnames.
  destruct (matching_paths s ud) as [|s0 srcs]; [done|]. simpl.
  destruct (matching_paths t pd) as [|t0 tgts] eqn:Ht; [done|]. simpl.
  intros [= <-]. by exists s0.
Qed.

Lemma connect_all_explicit_spec pd ud links :
  NoDup links.*1 → NoDup pd.*1 →
  ∀ c0 c, connect_all_explicit pd ud c0 links = inr c →
    (∀ t s p, (t, s) ∈ links → p ∈ matching_paths t pd →
       ∃ s0, head (matching_paths s ud) = Some s0 ∧ c !! p = Some s0) ∧
    (∀ p, (∀ t s, (t, s) ∈ links → p ∉ matching_paths t pd) →
          c !! p = c0 !! p).
Proof.
  intros Hl Hpd. induction links as [|[t0 s0] links IH]; intros c0 c; simpl.
  - intros [= <-]. split; [|done]. intros t s p Hin. by apply elem_of_nil in Hin.
  - csimpl in Hl. apply NoDup_cons in Hl as [Ht0 Hl].
    destruct (connect_explicit pd ud c0 t0 s0) as [e|c1] eqn:Hc1; [done|].
    simpl. intros Hrest.
    apply connect_explicit_inr in Hc1 as (src0 & Hhd & Hne & ->).
    destruct (IH Hl _ _ Hrest) as [Hin Hout]. split.
    + intros t s p Hel Hp. apply elem_of_cons in Hel as [[= -> ->]|Hel].
      * exists src0. split; [done|]. rewrite Hout.
        -- rewrite lookup_foldl_insert. by rewrite decide_True.
        -- intros t' s' Hel' Hp'.
           assert (t' = t0) as -> by by eapply matching_paths_unique.
           apply Ht0. apply list_elem_of_fmap. by exists (t0, s').
      * by eapply Hin.
    + intros p Hp. rewrite Hout.
      * rewrite lookup_foldl_insert. rewrite decide_False; [done|].
        apply (Hp t0 s0). by left.
      * intros t s Hel. apply (Hp t s). by right.
Qed.

(** X2.  The map a group returns holds, for every link it declares and every
    parameter path whose relative name is the link's target, the first
    unknown path whose relative name is the link's source: the group's own
    links are applied last and override whatever its subgroups
    contributed for the same target path. *)
Theorem own_links_resolved g subs locals c :
  NoDup (_src g).*1 → NoDup (_params_dict g).*1 →
  _get_explicit_connections (Group g subs locals) = inr c →
  ∀ t s p, (t, s) ∈ _src g → p ∈ matching_paths t (_params_dict g) →
    ∃ s0, head (matching_paths s (_unknowns_dict g)) = Some s0 ∧
          c !! p = Some s0.
Proof.
  intros Hl Hpd Hres. simpl in Hres. unfold bind_result in Hres at 1.
  match type of Hres with
  | match ?x with _ => _ end = _ => destruct x as [e|c0]; [done|]
  end.
  by destruct (connect_all_explicit_spec _ _ _ Hl Hpd _ _ Hres).
Qed.

Lemma own_links_resolved_witness :
  ∃ s0, head (matching_paths "x"
                [("a:x", mkMeta "x" true); ("b:x", mkMeta "x" true)]) = Some s0 ∧
        ({["c:y" := "a:x"]} : gmap string string) !! "c:y" = Some s0.
Proof.
  apply (own_links_resolved
           (mkGroup "" "" true [("y", "x")]
              [("c:y", mkMeta "y" true)]
              [("a:x", mkMeta "x" true); ("b:x", mkMeta "x" true)]
              None [] false no_jacobian "fwd" no_solver)
           [] [] {["c:y" := "a:x"]} ltac:(compute_done) ltac:(compute_done)
           ltac:(by vm_compute) "y" "x" "c:y").
  - by left.
  - compute_done.
Defined.

Lemma connect_all_explicit_unresolved pd ud links t s :
  (t, s) ∈ links →
  matching_paths s ud = [] ∨ matching_paths t pd = [] →
  ∀ c0, ∃ e, connect_all_explicit pd ud c0 links = inl e.
Proof.
  intros Hin Hbad. induction links as [|[t0 s0] links IH]; intros c0.
  - by apply elem_of_nil in Hin.
  - simpl. destruct (connect_explicit pd ud c0 t0 s0) as [e|c1] eqn:Hc1.
    + by exists e.
    + simpl. apply elem_of_cons in Hin as [[= -> ->]|Hin].
      * apply connect_explicit_inr in Hc1 as (src0 & Hhd & Hne & _).
        destruct Hbad as [Hs|Ht]; [by rewrite Hs in Hhd|done].
      * by apply IH.
Qed.

(** X3.  A declared link whose source name matches no unknown, or whose target
    name matches no parameter, makes the resolution of the group's explicit
    connections raise, whatever the other links and the subgroups are. *)
Theorem unresolved_link_raises g subs locals t s :
  (t, s) ∈ _src g →
  matching_paths s (_unknowns_dict g) = [] ∨
  matching_paths t (_params_dict g) = [] →
  ∃ e, _get_explicit_connections (Group g subs locals) = inl e.
Proof.
  intros Hin Hbad. simpl. unfold bind_result at 1.
  match goal with
  | |- ∃ e, match ?x with _ => _ end = _ => destruct x as [e|c0]
  end.
  - by exists e.
  - by eapply connect_all_explicit_unresolved.
Qed.

Lemma unresolved_link_raises_witness :
  ∃ e, _get_explicit_connections
         (Group (mkGroup "" "" true [("y", "x"); ("z", "x")]
                   [("c:y", mkMeta "y" true)]
                   [("a:x", mkMeta "x" true)]
                   None [] false no_jacobian "fwd" no_solver) [] [])
       = inl e.
Proof.
  apply (unresolved_link_raises
           (mkGroup "" "" true [("y", "x"); ("z", "x")]
              [("c:y", mkMeta "y" true)]
              [("a:x", mkMeta "x" true)]
              None [] false no_jacobian "fwd" no_solver) [] [] "z" "x").
  - compute_done.
  - right. reflexivity.
Defined.

(** X4.  After [connect(source, target)] the group holds exactly one link for
    [target], the one just declared: other targets keep their links, and a
    resolution that succeeds connects every parameter path named [target]
    to the first unknown path named [source], also when [target] had been
    connected to another source before. *)
Theorem connect_then_resolve g subs locals source target self' c :
  connect (Group g subs locals) source target = Some self' →
  NoDup (_src g).*1 → NoDup (_params_dict g).*1 →
  _get_explicit_connections self' = inr c →
  (∀ p, p ∈ matching_paths target (_params_dict g) →
     ∃ s0, head (matching_paths source (_unknowns_dict g)) = Some s0 ∧
           c !! p = Some s0) ∧
  ∃ g', self' = Group g' subs locals ∧
        dict_get (_src g') target = Some source ∧
        NoDup (_src g').*1 ∧
        ∀ t, t ≠ target → dict_get (_src g') t = dict_get (_src g) t.
Proof.
  intros Hc Hl Hpd Hres. simpl in Hc. injection Hc as <-.
  split.
  - simpl in Hres. unfold bind_result in Hres at 1.
    match type of Hres with
    | match ?x with _ => _ end = _ => destruct x as [e|c0]; [done|]
    end.
    apply connect_all_explicit_spec in Hres as [Hin _];
      [|by apply NoDup_keys_dict_set|done].
    intros p Hp. apply (Hin target source p); [|done].
    apply elem_of_dict_set.
  - eexists. split; [done|]. simpl. split; [apply dict_get_dict_set_eq|].
    split; [by apply NoDup_keys_dict_set|].
    intros t Hne. by apply dict_get_dict_set_ne.
Qed.

Lemma connect_then_resolve_witness :
  ∃ s0, head (matching_paths "w"
                [("a:x", mkMeta "x" true); ("b:w", mkMeta "w" true)])
          = Some s0 ∧
        ({["c:y" := "b:w"]} : gmap string string) !! "c:y" = Some s0.
Proof.
  destruct (connect_then_resolve
              (mkGroup "" "" true [("y", "x")]
                 [("c:y", mkMeta "y" true)]
                 [("a:x", mkMeta "x" true); ("b:w", mkMeta "w" true)]
                 None [] false no_jacobian "fwd" no_solver)
              [] [] "w" "y"
              (Group (mkGroup "" "" true [("y", "w")]
                        [("c:y", mkMeta "y" true)]
                        [("a:x", mkMeta "x" true); ("b:w", mkMeta "w" true)]
                        None [] false no_jacobian "fwd" no_solver) [] [])
              {["c:y" := "b:w"]}) as [H _].
  - reflexivity.
  - compute_done.
  - compute_done.
  - by vm_compute.
  - apply (H "c:y"). vm_compute. left.
Defined.

Lemma dict_get_collect_abs_names (d : vardict) name :
  default [] (dict_get (collect_abs_names d) name) = matching_paths name d.
Proof.
  unfold collect_abs_names. rewrite dict_get_collect. simpl.
  by destruct (matching_paths name d).
Qed.

Lemma implicit_fold (pd : vardict) (entries : list (string * list string))
    (p : string) :
  NoDup entries.*1 → NoDup pd.*1 →
  ∀ c0 : gmap string string,
    let c := foldl (λ connections e,
                      connect_params connections
                        (default [] (dict_get (collect_abs_names pd) e.1))
                        (default "" (head e.2))) c0 entries in
    (∀ e, e ∈ entries → p ∈ matching_paths e.1 pd →
          c !! p = Some (default "" (head e.2))) ∧
    ((∀ e, e ∈ entries → p ∉ matching_paths e.1 pd) → c !! p = c0 !! p).
Proof.
  intros Hnd Hpd. induction entries as [|e0 entries IH]; intros c0; simpl.
  - split; [|done]. intros e He. by apply elem_of_nil in He.
  - csimpl in Hnd. apply NoDup_cons in Hnd as [He0 Hnd].
    rewrite dict_get_collect_abs_names.
    destruct (IH Hnd (connect_params c0 (matching_paths e0.1 pd)
                        (default "" (head e0.2)))) as [Hin Hout].
    split.
    + intros e He Hp. apply elem_of_cons in He as [->|He].
      * rewrite Hout.
        -- unfold connect_params.
           rewrite lookup_foldl_insert. by rewrite decide_True.
        -- intros e' He' Hp'.
           assert (e'.1 = e0.1) as Heq by by eapply matching_paths_unique.
           apply He0. rewrite <- Heq. apply list_elem_of_fmap. by exists e'.
      * by apply Hin.
    + intros Hno. rewrite Hout.
      * unfold connect_params.
        rewrite lookup_foldl_insert. rewrite decide_False; [done|].
        apply Hno. by left.
      * intros e He. apply Hno. by right.
Qed.

(** X5.  When no relative name is carried by more than one unknown, the implicit
    connections are resolved without error, and the map returned connects a
    path [p] to [u] exactly when [p] is a parameter whose relative name is
    carried by the unknown [u]: every target is a path of the parameter
    dictionary, every source a path of the unknowns dictionary, and a
    parameter whose name no unknown carries is left unconnected. *)
Theorem implicit_connections_spec (pd ud : vardict) :
  NoDup pd.*1 →
  (∀ name, length (matching_paths name ud) ≤ 1) →
  ∃ c, _get_implicit_connections pd ud = inr c ∧
       (∀ p u, c !! p = Some u ↔
               ∃ mp, (p, mp) ∈ pd ∧
                     matching_paths (relative_name mp) ud = [u]) ∧
       (∀ p u, c !! p = Some u → p ∈ pd.*1 ∧ u ∈ ud.*1).
Proof.
  intros Hpd Huniq. unfold _get_implicit_connections.
  destruct (list_find _ (collect_abs_names ud)) as [[k [name lst]]|] eqn:Hfind.
  { apply list_find_Some in Hfind as (Hk & HP & _). simpl in HP.
    assert (Hel : (name, lst) ∈ collect_abs_names ud).
    { apply list_elem_of_lookup. by exists k. }
    apply collect_abs_names_spec in Hel as [-> _].
    specialize (Huniq name). lia. }
  eexists. split; [done|].
  assert (Hnd : NoDup (collect_abs_names ud).*1).
  { apply keys_collect_NoDup. constructor. }
  assert (Hiff : ∀ p u,
    foldl (λ connections e,
             connect_params connections
               (default [] (dict_get (collect_abs_names pd) e.1))
               (default "" (head e.2))) ∅ (collect_abs_names ud) !! p = Some u ↔
    ∃ mp, (p, mp) ∈ pd ∧ matching_paths (relative_name mp) ud = [u]).
  { intros p u.
    destruct (implicit_fold pd (collect_abs_names ud) p Hnd Hpd ∅) as [Hin Hout].
    split.
    - intros Hc.
      destruct (decide (Exists (λ e, p ∈ matching_paths e.1 pd)
                               (collect_abs_names ud))) as [Hex|Hno].
      + apply Exists_exists in Hex as ([name lst] & He & Hp).
        rewrite (Hin _ He Hp) in Hc. simpl in Hc, Hp.
        apply collect_abs_names_spec in He as [-> Hne].
        apply elem_of_matching_paths in Hp as (mp & Hmp & Hr).
        exists mp. split; [done|]. rewrite Hr.
        specialize (Huniq name).
        destruct (matching_paths name ud) as [|u0 [|u1 us]]; simpl in *;
          [done| |lia].
        by injection Hc as ->.
      + rewrite Hout in Hc; [by rewrite lookup_empty in Hc|].
        intros e He Hp. apply Hno. apply Exists_exists. by exists e.
    - intros (mp & Hmp & Hu).
      assert (He : (relative_name mp, [u]) ∈ collect_abs_names ud).
      { apply collect_abs_names_spec. by rewrite Hu. }
      rewrite (Hin _ He); [done|].
      apply elem_of_matching_paths. by exists mp. }
  split; [done|].
  intros p u (mp & Hmp & Hu)%Hiff. split.
  - apply list_elem_of_fmap. by exists (p, mp).
  - assert (Hel : u ∈ matching_paths (relative_name mp) ud).
    { rewrite Hu. by left. }
    apply elem_of_matching_paths in Hel as (m & Hm & _).
    apply list_elem_of_fmap. by exists (u, m).
Qed.

Lemma implicit_connections_spec_witness :
  ∃ c, _get_implicit_connections
         [("B:x", mkMeta "x" true); ("B:z", mkMeta "z" true)]
         [("A:x", mkMeta "x" true)] = inr c ∧
       c !! "B:x" = Some "A:x" ∧ c !! "B:z" = None.
Proof.
  destruct (implicit_connections_spec
              [("B:x", mkMeta "x" true); ("B:z", mkMeta "z" true)]
              [("A:x", mkMeta "x" true)]) as (c & Hc & Hiff & _).
  - compute_done.
  - intros name. unfold matching_paths. rewrite length_fmap.
    etrans; [apply length_filter|]. simpl. lia.
  - exists c. split; [exact Hc|]. split.
    + apply Hiff. exists (mkMeta "x" true). split; [by left|]. reflexivity.
    + destruct (c !! "B:z") as [u|] eqn:Hu; [|done]. exfalso.
      apply Hiff in Hu as (mp & Hmp & Hm).
      apply elem_of_cons in Hmp as [Heq|Hmp]; [discriminate Heq|].
      apply list_elem_of_singleton in Hmp. injection Hmp as ->.
      discriminate Hm.
Defined.

End connection_more.

(** ** group.py: sizing, local subsystems and clearing *)

Module tree_more.
Import numpy util data_transfer group group_tree examples.
Import numpy_facts connection_facts view_facts tree_facts.

Lemma req_procs_loop_min rec l acc :
  let r := req_procs_loop rec l acc in
  Z.le acc.1 r.1 ∧
  (∀ e, e ∈ l → Z.le (rec e.2).1 r.1) ∧
  (r.1 = acc.1 ∨ ∃ e, e ∈ l ∧ r.1 = (rec e.2).1).
Proof.
  revert acc. induction l as [|[n sub] l IH]; intros acc; simpl.
  - split; [lia|]. split; [|by left]. intros e He. by apply elem_of_nil in He.
  - destruct (IH (req_procs_step acc (rec sub))) as (H1 & H2 & H3).
    simpl in H1, H3. split; [lia|]. split.
    + intros e He. apply elem_of_cons in He as [->|He]; [simpl; lia|].
      by apply H2.
    + destruct H3 as [H3|(e & He & H3)].
      * destruct (Z.max_spec acc.1 (rec sub).1) as [[_ Hm]|[_ Hm]].
        -- right. exists (n, sub). split; [by left|]. simpl. lia.
        -- left. lia.
      * right. exists e. split; [by right|done].
Qed.

Lemma req_procs_loop_max rec l acc :
  let r := req_procs_loop rec l acc in
  (r.2 = None ↔ acc.2 = None ∨ ∃ e, e ∈ l ∧ (rec e.2).2 = None) ∧
  (∀ m, r.2 = Some m →
        ∃ a, acc.2 = Some a ∧ Z.le a m ∧
             ∀ e, e ∈ l → ∃ sm, (rec e.2).2 = Some sm ∧ Z.le sm m).
Proof.
  revert acc. induction l as [|[n sub] l IH]; intros acc; simpl.
  - split.
    + split; [by left|]. intros [H|(e & He & _)]; [done|].
      by apply elem_of_nil in He.
    + intros m Hm. exists m. split; [done|]. split; [lia|].
      intros e He. by apply elem_of_nil in He.
  - destruct (IH (req_procs_step acc (rec sub))) as [H1 H2]. simpl in H1, H2.
    split.
    + rewrite H1. split.
      * intros [Hs|(e & He & Hn)].
        -- destruct acc.2 as [a|]; [|by left].
           destruct (rec sub).2 as [sm|] eqn:Hsub; [done|].
           right. exists (n, sub). split; [by left|done].
        -- right. exists e. split; [by right|done].
      * intros [Ha|(e & He & Hn)].
        -- left. by rewrite Ha.
        -- apply elem_of_cons in He as [->|He].
           ++ left. simpl in Hn. rewrite Hn. by destruct acc.2.
           ++ right. by exists e.
    + intros m Hm. destruct (H2 m Hm) as (a' & Ha' & Hle & Hall).
      destruct acc.2 as [a|]; [|done].
      destruct (rec sub).2 as [sm|] eqn:Hsub; [|done].
      injection Ha' as <-. exists a. split; [done|]. split; [lia|].
      intros e He. apply elem_of_cons in He as [->|He].
      * exists sm. split; [done|]. lia.
      * by apply Hall.
Qed.

(** X6.  The least number of processes a group asks for is at least 1, at least
    what each of its subsystems asks for, and no more than that: it is 1 or
    the least number of one of the subsystems.  All registered subsystems
    count, local or not. *)
Theorem get_req_procs_min leaf g subs locals :
  let r := get_req_procs leaf (Group g subs locals) in
  Z.le 1 r.1 ∧
  (∀ name sub, (name, sub) ∈ subs → Z.le (get_req_procs leaf sub).1 r.1) ∧
  (r.1 = 1%Z ∨
   ∃ name sub, (name, sub) ∈ subs ∧ r.1 = (get_req_procs leaf sub).1).
Proof.
  simpl.
  destruct (req_procs_loop_min (get_req_procs leaf) subs (1%Z, Some 1%Z))
    as (H1 & H2 & H3).
  simpl in H1, H3. split; [done|]. split.
  - intros name sub Hin. apply (H2 (name, sub) Hin).
  - destruct H3 as [H3|([name sub] & He & H3)]; [by left|].
    right. by exists name, sub.
Qed.

(** X7.  The greatest number of processes a group can use is unlimited exactly
    when one of its subsystems is unlimited; otherwise it is at least 1 and
    at least the limit of every subsystem. *)
Theorem get_req_procs_max leaf g subs locals :
  let r := get_req_procs leaf (Group g subs locals) in
  (r.2 = None ↔
   ∃ name sub, (name, sub) ∈ subs ∧ (get_req_procs leaf sub).2 = None) ∧
  (∀ m, r.2 = Some m →
        Z.le 1 m ∧
        ∀ name sub, (name, sub) ∈ subs →
          ∃ sm, (get_req_procs leaf sub).2 = Some sm ∧ Z.le sm m).
Proof.
  simpl.
  destruct (req_procs_loop_max (get_req_procs leaf) subs (1%Z, Some 1%Z))
    as [H1 H2].
  simpl in H1, H2. split.
  - rewrite H1. split.
    + intros [H|([name sub] & He & Hn)]; [done|]. by exists name, sub.
    + intros (name & sub & He & Hn). right. by exists (name, sub).
  - intros m Hm. destruct (H2 m Hm) as (a & [= <-] & Hle & Hall).
    split; [done|]. intros name sub Hin. apply (Hall (name, sub) Hin).
Qed.

Lemma mark_local_lookup prefix (d : vardict) i name meta :
  d !! i = Some (name, meta) →
  mark_local prefix d !! i =
  Some (name, mkMeta (relative_name meta)
                     (String.prefix prefix name || local meta)).
Proof.
  intros Hi. unfold mark_local. rewrite list_lookup_fmap, Hi. simpl.
  destruct (String.prefix prefix name); [done|]. by destruct meta.
Qed.

(** X8.  [_add_local_subsystem(sub)] files [sub] under its name among the local
    subsystems, leaves the registered subsystems alone, and in both
    dictionaries of metadata marks as local exactly the variables whose
    path starts with the path of [sub] followed by the separator: no
    variable is added, removed, renamed or un-marked. *)
Theorem add_local_subsystem_marks g subs locals sub :
  ∃ g' locals',
    _add_local_subsystem (Group g subs locals) sub
      = Some (Group g' subs locals') ∧
    dict_get locals' (sys_name sub) = Some sub ∧
    (∀ other, other ≠ sys_name sub →
       dict_get locals' other = dict_get locals other) ∧
    length (_params_dict g') = length (_params_dict g) ∧
    length (_unknowns_dict g') = length (_unknowns_dict g) ∧
    (∀ i name meta, _params_dict g !! i = Some (name, meta) →
       _params_dict g' !! i =
       Some (name, mkMeta (relative_name meta)
                      (String.prefix (String.append (sys_pathname sub) ":") name
                       || local meta))) ∧
    (∀ i name meta, _unknowns_dict g !! i = Some (name, meta) →
       _unknowns_dict g' !! i =
       Some (name, mkMeta (relative_name meta)
                      (String.prefix (String.append (sys_pathname sub) ":") name
                       || local meta))).
Proof.
  eexists _, _. split; [reflexivity|]. simpl.
  split; [apply dict_get_dict_set_eq|].
  split; [intros other Hne; by apply dict_get_dict_set_ne|].
  split; [unfold mark_local; apply length_fmap|].
  split; [unfold mark_local; apply length_fmap|].
  split; intros i name meta Hi; by apply mark_local_lookup.
Qed.

(** Induction over the tree of systems. *)
Lemma System_tree_ind (P : System → Prop) :
  (∀ c, P (Component c)) →
  (∀ c, P (ParamComp c)) →
  (∀ g subs locals,
     Forall (λ e, P e.2) subs → Forall (λ e, P e.2) locals →
     P (Group g subs locals)) →
  ∀ s, P s.
Proof.
  intros Hc Hp Hg. fix IH 1. intros [c|c|g subs locals].
  - apply Hc.
  - apply Hp.
  - apply Hg.
    + induction subs as [|[n s] subs IHs]; constructor; [apply IH|apply IHs].
    + induction locals as [|[n s] locals IHs]; constructor; [apply IH|apply IHs].
Qed.

Lemma length_zero_view (buf : ndarray) w :
  length (zero_view buf w) = length buf.
Proof.
  unfold zero_view, write_view, zero_array, read_view.
  rewrite !length_app, !length_replicate, !length_take, !length_drop. lia.
Qed.

Lemma lookup_zero_view (buf : ndarray) w j :
  zero_view buf w !! j =
  if decide (offset w ≤ j < offset w + size w ∧ j < length buf)
  then Some 0%Z else buf !! j.
Proof.
  unfold zero_view, write_view, zero_array, read_view.
  rewrite length_replicate, length_take, length_drop.
  set (n := size w `min` (length buf - offset w)).
  destruct (decide (j < offset w `min` length buf)) as [Hlt|Hge].
  - rewrite lookup_app_l by (rewrite length_take; lia).
    rewrite lookup_take_lt by lia. rewrite decide_False by lia. done.
  - rewrite lookup_app_r by (rewrite length_take; lia).
    rewrite length_take.
    destruct (decide (j - offset w `min` length buf < n)) as [Hin|Hout].
    + rewrite lookup_app_l by (rewrite length_replicate; lia).
      rewrite lookup_replicate_2 by lia.
      rewrite decide_True by lia. done.
    + rewrite lookup_app_r by (rewrite length_replicate; lia).
      rewrite length_replicate, lookup_drop.
      rewrite decide_False by lia.
      destruct (decide (offset w ≤ length buf)) as [Hle|Hgt].
      * f_equal. lia.
      * rewrite !lookup_ge_None_2 by lia. done.
Qed.

Lemma cleared_refl st : cleared st st.
Proof. split; [by destruct st|]. split; [done|]. by left. Qed.

Lemma cleared_trans st1 st2 st3 :
  cleared st1 st2 → cleared st2 st3 → cleared st1 st3.
Proof.
  intros (H1 & L1 & Z1) (H2 & L2 & Z2). split; [|split].
  - rewrite H2. rewrite H1. done.
  - congruence.
  - intros j. destruct (Z2 j) as [Hs|Hz]; [|by right].
    rewrite Hs. apply Z1.
Qed.

Lemma cleared_zero_view st w :
  cleared st (set_dparams st (zero_view (dparams_vec st) w)).
Proof.
  split; [done|]. split; [apply length_zero_view|].
  intros j. simpl. rewrite lookup_zero_view. case_decide; [by right|by left].
Qed.

Lemma cleared_keeps_zero st st' j :
  cleared st st' → dparams_vec st !! j = Some 0%Z →
  dparams_vec st' !! j = Some 0%Z.
Proof. intros (_ & _ & Z) Hj. destruct (Z j) as [Hs|Hz]; congruence. Qed.

Lemma clear_dparams_children_cleared g l :
  Forall (λ e : string * System,
            ∀ st st', clear_dparams e.2 st = Some st' → cleared st st') l →
  ∀ st st', clear_dparams_children clear_dparams g l st = Some st' →
    cleared st st' ∧
    ∀ name sub view j,
      (name, sub) ∈ l → is_component sub = true →
      dict_get (_views g) (sys_name sub) = Some view →
      offset (dparams view) ≤ j < offset (dparams view) + size (dparams view) →
      j < length (dparams_vec st) →
      dparams_vec st' !! j = Some 0%Z.
Proof.
  induction 1 as [|[n system] l Hsys _ IH]; intros st st'; simpl.
  - intros [= <-]. split; [apply cleared_refl|].
    intros name sub view j Hin. by apply elem_of_nil in Hin.
  - destruct (clear_dparams_child clear_dparams g system st) as [st1|] eqn:Hc;
      [|done].
    simpl. intros Hrest. destruct (IH _ _ Hrest) as [Hcl Hz].
    assert (Hcl1 : cleared st st1).
    { unfold clear_dparams_child in Hc. destruct (is_component system).
      - destruct (dict_get (_views g) (sys_name system)); [|done].
        injection Hc as <-. apply cleared_zero_view.
      - by apply Hsys. }
    split; [by eapply cleared_trans|].
    intros name sub view j Hin Hcomp Hview Hj Hlen.
    apply elem_of_cons in Hin as [[= -> ->]|Hin].
    + apply (cleared_keeps_zero st1); [done|].
      unfold clear_dparams_child in Hc. rewrite Hcomp, Hview in Hc.
      injection Hc as <-. simpl. rewrite lookup_zero_view.
      by rewrite decide_True.
    + eapply Hz; [done..|]. destruct Hcl1 as (_ & -> & _). done.
Qed.

Lemma clear_dparams_cleared self :
  ∀ st st', clear_dparams self st = Some st' → cleared st st'.
Proof.
  induction self as [c|c|g subs locals _ IH] using System_tree_ind;
    intros st st'; simpl; try done.
  destruct (_varmanager g) as [vm|]; [|done]. simpl. intros Hrest.
  apply (clear_dparams_children_cleared g locals IH) in Hrest as [Hcl _].
  eapply cleared_trans; [apply cleared_zero_view|done].
Qed.



End tree_more.

(** ** group.py: guards, modes and the linear solve *)

Module operator_more.
Import numpy util data_transfer group group_tree examples examples_more.
Import numpy_facts connection_facts view_facts tree_facts.

(** X10.  An inactive group does no work: applying the linear operator or
    evaluating the residuals leaves the store as it is and calls nothing,
    and the linear solve returns [None] without touching a vector. *)
Theorem inactive_group_does_nothing norm leaf g subs locals :
  g_active g = false →
  (∀ v mode st,
     apply_linear (Group g subs locals) v mode st = Some (st, [])) ∧
  (∀ args st,
     apply_nonlinear leaf (Group g subs locals) args st = Some (st, [])) ∧
  (∀ rhs mode st, solve_linear norm g rhs mode st = Some (None, st, [])).
Proof.
  intros Ha. split; [|split].
  - intros v mode st. simpl. by rewrite Ha.
  - intros args st. simpl. by rewrite Ha.
  - intros rhs mode st. unfold solve_linear. by rewrite Ha.
Qed.

Lemma inactive_group_does_nothing_witness :
  apply_linear (chain false) view_A "fwd"
    (chain_store [1%Z] [1%Z; 7%Z] [0%Z; 0%Z])
  = Some (chain_store [1%Z] [1%Z; 7%Z] [0%Z; 0%Z], []).
Proof.
  destruct (inactive_group_does_nothing (λ _, 0%float) (λ _ _ st, Some st)
              (chain_attrs false)
              [("A", ParamComp comp_A); ("B", Component comp_B)]
              [("A", ParamComp comp_A); ("B", Component comp_B)]) as [H _].
  - reflexivity.
  - apply H.
Defined.

Lemma apply_linear_children_unknown_mode g mode locals st :
  mode ≠ "fwd" → mode ≠ "rev" →
  Forall (λ e : string * System,
            is_explicit_component e.2 = true ∧
            is_Some (dict_get (_views g) (sys_name e.2))) locals →
  apply_linear_children apply_linear g mode locals st = Some (st, []).
Proof.
  intros Hf Hr. induction 1 as [|[n system] l [Hex [view Hview]] _ IH]; [done|].
  simpl in *. unfold apply_linear_child. rewrite Hview. simpl.
  destruct system as [c|c|g' subs' locals']; try done.
  rewrite !decide_False by done. simpl. rewrite IH. done.
Qed.

(** X11.  With a mode that is neither ['fwd'] nor ['rev'], an active group whose
    local children are all components other than parameter components runs
    no scatter, calls no child and changes nothing, variable manager or
    not. *)
Theorem apply_linear_unknown_mode g subs locals v mode st :
  g_active g = true →
  mode ≠ "fwd" → mode ≠ "rev" →
  Forall (λ e : string * System,
            is_explicit_component e.2 = true ∧
            is_Some (dict_get (_views g) (sys_name e.2))) locals →
  apply_linear (Group g subs locals) v mode st = Some (st, []).
Proof.
  intros Ha Hf Hr Hl. simpl. rewrite Ha. simpl.
  rewrite !decide_False by done. simpl.
  rewrite apply_linear_children_unknown_mode by done. simpl.
  by rewrite decide_False by done.
Qed.

Lemma apply_linear_unknown_mode_witness :
  apply_linear
    (Group (chain_attrs true) [("B", Component comp_B)] [("B", Component comp_B)])
    view_A "auto" (chain_store [1%Z] [1%Z; 7%Z] [0%Z; 0%Z])
  = Some (chain_store [1%Z] [1%Z; 7%Z] [0%Z; 0%Z], []).
Proof.
  apply apply_linear_unknown_mode.
  - reflexivity.
  - discriminate.
  - discriminate.
  - repeat constructor. by eexists.
Defined.

Lemma assign_all_same (a v : ndarray) :
  length v = length a → assign_all a v = Some v.
Proof.
  intros Hlen. unfold assign_all, setitem. simpl positions.
  rewrite Nat.min_id, Nat.sub_0_r. simpl.
  rewrite length_seq, broadcast_to_same by done. simpl. f_equal.
  assert (Hfst : (zip (seq 0 (length a)) v).*1 = seq 0 (length a)).
  { apply fst_zip. rewrite length_seq. lia. }
  apply list_eq. intros i.
  destruct (decide (i < length a)) as [Hi|Hi].
  - assert (Hv : i < length v) by lia.
    rewrite (list_lookup_lookup_total_lt v i Hv).
    apply scatter_set_lookup_in; [by rewrite Hfst; apply NoDup_seq| |done].
    apply list_elem_of_lookup. exists i.
    apply lookup_zip_with_Some. exists i, (v !!! i).
    split; [done|]. split; [by apply lookup_seq_lt|].
    by apply list_lookup_lookup_total_lt.
  - rewrite scatter_set_lookup_notin.
    + rewrite !lookup_ge_None_2 by lia. done.
    + rewrite Hfst. rewrite elem_of_seq. lia.
Qed.

(** X12.  When the norm of the right-hand side is not below the tolerance, an
    active group hands a copy of its own right-hand-side vector (not the
    argument) to the linear solver, once, in the mode given or, for
    ['auto'], in the mode configured on the solver; the solution is copied
    into the solution buffer and the solution vector, and [solve_linear]
    itself returns [None]. *)
Theorem solve_linear_delegates norm g rhs mode st sol st1 :
  let mode' := if decide (mode = "auto") then ln_solver_mode g else mode in
  g_active g = true →
  PrimFloat.ltb (norm rhs) tolerance = false →
  length (rhs_vec_array st.2) = length (rhs_buf st.2) →
  length (sol_vec_array st.2) = length (sol_buf st.2) →
  ln_solver_solve g (rhs_vec_array st.2) mode'
    (st.1, mkLinear (sol_vec_array st.2) (rhs_vec_array st.2)
                    (rhs_vec_array st.2) (sol_vec_array st.2))
    = Some (sol, st1) →
  length sol = length (sol_buf st1.2) →
  length sol = length (sol_vec_array st1.2) →
  solve_linear norm g rhs mode st
    = Some (None,
            (st1.1, mkLinear sol (rhs_vec_array st1.2) (rhs_buf st1.2) sol),
            [LnSolve mode']).
Proof.
  intros mode' Ha Hn Hr Hs Hsolve Hl1 Hl2. unfold solve_linear.
  rewrite Ha, Hn. simpl.
  rewrite !assign_all_same by done. simpl.
  fold mode'. rewrite Hsolve. simpl.
  rewrite (assign_all_same _ sol) by done. simpl.
  rewrite (assign_all_same _ sol) by done. done.
Qed.

Lemma solve_linear_delegates_witness :
  solve_linear (λ _, 1%float) echo_attrs [9%Z; 9%Z] "auto"
    (chain_store [0%Z] [0%Z; 0%Z] [0%Z; 0%Z],
     mkLinear [4%Z; 5%Z] [6%Z; 7%Z] [1%Z; 1%Z] [2%Z; 2%Z])
  = Some (None,
          (chain_store [0%Z] [0%Z; 0%Z] [0%Z; 0%Z],
           mkLinear [6%Z; 7%Z] [6%Z; 7%Z] [6%Z; 7%Z] [6%Z; 7%Z]),
          [LnSolve "rev"]).
Proof.
  apply (solve_linear_delegates (λ _, 1%float) echo_attrs [9%Z; 9%Z] "auto"
           (chain_store [0%Z] [0%Z; 0%Z] [0%Z; 0%Z],
            mkLinear [4%Z; 5%Z] [6%Z; 7%Z] [1%Z; 1%Z] [2%Z; 2%Z])
           [6%Z; 7%Z]
           (chain_store [0%Z] [0%Z; 0%Z] [0%Z; 0%Z],
            mkLinear [4%Z; 5%Z] [6%Z; 7%Z] [6%Z; 7%Z] [4%Z; 5%Z])).
  - reflexivity.
  - reflexivity.
  - reflexivity.
  - reflexivity.
  - reflexivity.
  - reflexivity.
  - reflexivity.
Defined.

Lemma apply_nonlinear_children_events leaf g locals st st' evs :
  apply_nonlinear_children (apply_nonlinear leaf) g locals st
    = Some (st', evs) →
  ∃ inners,
    length inners = length locals ∧
    evs = concat (zip_with (λ e inner, [NlTransfer e.1;
                                        NlApply (sys_name e.2) inner])
                           locals inners).
Proof.
  revert st st' evs. induction locals as [|[n sub] locals IH];
    intros st st' evs; simpl.
  - intros [= <- <-]. by exists [].
  - destruct (apply_nonlinear_child (apply_nonlinear leaf) g n sub st)
      as [[s1 ev1]|] eqn:Hc; [|done]. simpl.
    destruct (apply_nonlinear_children (apply_nonlinear leaf) g locals s1)
      as [[s2 ev2]|] eqn:Hr; [|done]. simpl.
    intros [= <- <-].
    destruct (IH _ _ _ Hr) as (inners & Hlen & ->).
    unfold apply_nonlinear_child in Hc.
    destruct (_varmanager g) as [vm|]; [|done]. simpl in Hc.
    destruct (_transfer_data vm n "fwd" false st) as [st1|]; [|done].
    simpl in Hc.
    destruct (dict_get (_views g) (sys_name sub)) as [view|]; [|done].
    simpl in Hc.
    destruct (apply_nonlinear leaf sub (Some view) st1) as [[s3 inner]|];
      [|done].
    simpl in Hc. injection Hc as <- <-.
    exists (inner :: inners). split; [simpl; by rewrite Hlen|done].
Qed.

(** X13.  Evaluating the residuals of an active group goes through the local
    children in order, and for each of them first transfers the data that
    child receives (a forward, non-derivative transfer for that child
    alone) and then calls the child's own evaluation.  Without a variable
    manager the call with default vectors raises. *)
Theorem apply_nonlinear_order leaf g subs locals :
  g_active g = true →
  (∀ args st st' evs,
     apply_nonlinear leaf (Group g subs locals) args st = Some (st', evs) →
     ∃ inners,
       length inners = length locals ∧
       evs = concat (zip_with (λ e inner, [NlTransfer e.1;
                                           NlApply (sys_name e.2) inner])
                              locals inners)) ∧
  (∀ st, _varmanager g = None →
         apply_nonlinear leaf (Group g subs locals) None st = None) ∧
  (∀ name sub rest st,
     apply_nonlinear_children (apply_nonlinear leaf) g
       ((name, sub) :: rest) st =
     vm ← _varmanager g;
     st1 ← _transfer_data vm name "fwd" false st;
     view ← dict_get (_views g) (sys_name sub);
     r ← apply_nonlinear leaf sub (Some view) st1;
     r' ← apply_nonlinear_children (apply_nonlinear leaf) g rest r.1;
     Some (r'.1, [NlTransfer name; NlApply (sys_name sub) r.2] ++ r'.2)).
Proof.
  intros Ha. split; [|split].
  - intros args st st' evs. cbn [apply_nonlinear]. rewrite Ha. simpl.
    destruct (match args with
              | Some view => Some view
              | None => vectors <$> _varmanager g
              end); [|done].
    simpl. apply apply_nonlinear_children_events.
  - intros st Hvm. cbn [apply_nonlinear]. by rewrite Ha, Hvm.
  - intros name sub rest st. cbn [apply_nonlinear_children].
    unfold apply_nonlinear_child.
    destruct (_varmanager g) as [vm|]; [|done]. simpl.
    destruct (_transfer_data vm name "fwd" false st) as [st1|]; [|done]. simpl.
    destruct (dict_get (_views g) (sys_name sub)) as [view|]; [|done]. simpl.
    by destruct (apply_nonlinear leaf sub (Some view) st1) as [r|].
Qed.

Lemma apply_nonlinear_order_witness :
  apply_nonlinear idle_leaf (chain true) None
    (mkStore [0%Z] [3%Z; 0%Z] [0%Z; 0%Z] [0%Z] [0%Z; 0%Z] [0%Z; 0%Z] ∅ ∅)
  = Some (mkStore [0%Z] [3%Z; 0%Z] [0%Z; 0%Z] [0%Z] [0%Z; 0%Z] [0%Z; 0%Z] ∅ ∅,
          [NlTransfer "A"; NlApply "A" []; NlTransfer "B"; NlApply "B" []]) ∧
  ∃ inners,
    length inners = 2 ∧
    [NlTransfer "A"; NlApply "A" []; NlTransfer "B"; NlApply "B" []] =
    concat (zip_with (λ e inner, [NlTransfer e.1; NlApply (sys_name e.2) inner])
              [("A", ParamComp comp_A); ("B", Component comp_B)] inners).
Proof.
  split; [reflexivity|].
  destruct (apply_nonlinear_order idle_leaf (chain_attrs true)
              [("A", ParamComp comp_A); ("B", Component comp_B)]
              [("A", ParamComp comp_A); ("B", Component comp_B)])
    as [H _].
  - reflexivity.
  - apply (H None
             (mkStore [0%Z] [3%Z; 0%Z] [0%Z; 0%Z] [0%Z] [0%Z; 0%Z] [0%Z; 0%Z] ∅ ∅)
             (mkStore [0%Z] [3%Z; 0%Z] [0%Z; 0%Z] [0%Z] [0%Z; 0%Z] [0%Z; 0%Z] ∅ ∅)).
    reflexivity.
Defined.

End operator_more.


(** ** group.py: item access on an active group *)

Module getitem_more.
Import numpy util data_transfer group group_tree examples.
Import connection_facts tree_facts tree_spec.

Lemma split_colon_path subsys subname :
  has_colon subsys = false →
  split_colon (String.append subsys (String ":"%char subname))
    = subsys :: split_colon subname.
Proof.
  induction subsys as [|c rest IH]; simpl; [done|].
  destruct (Ascii.eqb c ":"%char); simpl; [done|].
  intros H. by rewrite (IH H).
Qed.

Lemma split_colon_once_path subsys subname :
  has_colon subsys = false →
  split_colon_once (String.append subsys (String ":"%char subname))
    = [subsys; subname].
Proof.
  induction subsys as [|c rest IH]; simpl; [done|].
  destruct (Ascii.eqb c ":"%char); simpl; [done|].
  intros H. by rewrite (IH H).
Qed.

Lemma split_colon_cons name : ∃ part parts, split_colon name = part :: parts.
Proof.
  induction name as [|c rest (part & parts & IH)]; simpl; [by eexists _, _|].
  destruct (Ascii.eqb c ":"%char); [by eexists _, _|].
  rewrite IH. by eexists _, _.
Qed.



End getitem_more.

(** ** data_transfer.py: composing transfers *)

Module transfer_more.
Import numpy util data_transfer group_tree.
Import numpy_facts plan_facts.

Lemma elem_of_zip_r_inv (src tgt : list nat) t :
  length src = length tgt → t ∈ tgt → ∃ s, (s, t) ∈ zip src tgt.
Proof.
  intros Hlen Hin. apply list_elem_of_lookup in Hin as [i Hi].
  assert (His : i < length src).
  { rewrite Hlen. by eapply lookup_lt_Some. }
  apply lookup_lt_is_Some in His as [s Hs].
  exists s. apply list_elem_of_lookup. exists i.
  apply lookup_zip_with_Some. by exists s, t.
Qed.

(** X15.  A forward transfer run twice in a row gives what one run gives: the
    second run finds every target already equal to its source. *)
Theorem transfer_fwd_idempotent {A} `{!Dtype A, !Inhabited A}
    src tgt vc bc cmode (srcvec tgtvec : VecWrapper A) mode :
  mode ≠ "rev" →
  length src = length tgt →
  Forall (λ k, k < length (vec srcvec)) src →
  Forall (λ k, k < length (vec tgtvec)) tgt →
  NoDup tgt →
  ∃ tv1,
    transfer (DataTransfer_init src tgt vc bc cmode) srcvec tgtvec mode true
      = Some (srcvec, tv1) ∧
    transfer (DataTransfer_init src tgt vc bc cmode) srcvec tv1 mode true
      = Some (srcvec, tv1).
Proof.
  intros Hm Hlen Hs Ht Hnd.
  pose proof (init_expand src tgt vc bc cmode Hlen) as (HS & HT & HL).
  pose proof (init_pairs src tgt vc bc cmode Hlen) as HP. simpl in HP.
  set (x := DataTransfer_init src tgt vc bc cmode) in *.
  set (S := expand (src_slice x)) in *. set (T := expand (tgt_slice x)) in *.
  assert (HsS : Forall (λ k, k < length (vec srcvec)) S) by by rewrite HS.
  assert (HtT : Forall (λ k, k < length (vec tgtvec)) T) by by rewrite HT.
  set (kvs := zip T ((λ k, vec srcvec !!! k) <$> S)).
  assert (Hfst : kvs.*1 = T).
  { apply fst_zip. rewrite length_fmap. lia. }
  assert (HndT : NoDup kvs.*1) by (rewrite Hfst; by rewrite HT).
  exists (set_vec tgtvec (scatter_set (vec tgtvec) kvs)).
  split; [by apply transfer_fwd_expand|].
  rewrite transfer_fwd_expand; [|done..|]; cycle 1.
  { simpl. by rewrite length_scatter_set. }
  f_equal. f_equal. unfold set_vec. simpl. f_equal.
  fold S T kvs. apply list_eq. intros j.
  destruct (decide (j ∈ T)) as [Hj|Hj].
  - assert (∃ v, (j, v) ∈ kvs) as [v Hv].
    { rewrite <- Hfst in Hj. apply list_elem_of_fmap in Hj as ([j' v] & -> & Hv).
      by exists v. }
    assert (Hlt : j < length (vec tgtvec)).
    { rewrite Forall_forall in HtT. by apply HtT. }
    rewrite (scatter_set_lookup_in kvs _ j v); [|done..|]; cycle 1.
    { by rewrite length_scatter_set. }
    by rewrite (scatter_set_lookup_in kvs _ j v).
  - rewrite scatter_set_lookup_notin; [done|by rewrite Hfst].
Qed.

Lemma transfer_fwd_idempotent_witness :
  ∃ tv1,
    transfer (DataTransfer_init [2; 0] [0; 1] [] [] "fwd")
      (mkVec [4%Z; 5%Z; 6%Z] ∅) (mkVec [0%Z; 0%Z; 9%Z] ∅) "fwd" true
      = Some (mkVec [4%Z; 5%Z; 6%Z] ∅, tv1) ∧
    transfer (DataTransfer_init [2; 0] [0; 1] [] [] "fwd")
      (mkVec [4%Z; 5%Z; 6%Z] ∅) tv1 "fwd" true
      = Some (mkVec [4%Z; 5%Z; 6%Z] ∅, tv1).
Proof.
  apply (transfer_fwd_idempotent [2; 0] [0; 1] [] [] "fwd"
           (mkVec [4%Z; 5%Z; 6%Z] ∅) (mkVec [0%Z; 0%Z; 9%Z] ∅) "fwd").
  - discriminate.
  - reflexivity.
  - repeat constructor.
  - repeat constructor.
  - compute_done.
Defined.

End transfer_more.
